(** * Geometry generators of qiskit-metal: [TurtleQubit] and [XYTip]

    A shallow embedding of
    [src/qiskit_metal/qtl_packages/turtle_qubit.py] and
    [src/qiskit_metal/qtl_packages/xy_tip.py].

    Parsed option values (floats, in millimetres and degrees) are real
    numbers.  A planar region is the set of its points; a line string is
    the list of its coordinates.  The host design is a record holding the
    render mode and the two registries the components write to, and a
    [make] pass is a function from host state to host state. *)

From Stdlib Require Import Reals Lra Psatz List String ZArith Bool.
From Stdlib Require Import Setoid Morphisms.
Import ListNotations.
Open Scope R_scope.

(** ** The drawing layer ([qiskit_metal.draw] over the geometry library) *)

Module Draw.

Definition point : Type := (R * R)%type.
Definition shape : Type := point -> Prop.
Definition coords : Type := list point.

Definition px (p : point) : R := fst p.
Definition py (p : point) : R := snd p.

(** Squared Euclidean distance. *)
Definition dist2 (p q : point) : R :=
  (px p - px q) * (px p - px q) + (py p - py q) * (py p - py q).

Definition subset (a b : shape) : Prop := forall p, a p -> b p.
Definition same (a b : shape) : Prop := forall p, a p <-> b p.
Definition empty (a : shape) : Prop := forall p, ~ a p.

(** Modelled from the spec: [draw.Point(x, y)] of the geometry library,
    a single location. *)
Definition Point (x y : R) : shape := fun p => p = (x, y).

(** Modelled from the spec: [shape.buffer(d)] of the geometry library
    with round joins ("buffering circles", "buffer-grow",
    "buffer-shrink"): for [0 <= d] every point within distance [d] of
    the shape, for [d < 0] every point whose open disk of radius [-d]
    lies inside the shape.  The library approximates the round parts by
    polygons ([resolution] segments per quarter circle); the model takes
    the exact region. *)
Definition buffer (s : shape) (d : R) : shape :=
  fun p =>
    (0 <= d /\ exists q, s q /\ dist2 p q <= d * d) \/
    (d < 0 /\ forall q, dist2 p q < d * d -> s q).

(** Modelled from the spec: [line.buffer(d, cap_style=2)] for a line
    lying on a circle about the origin ("a thin arc segment ... extruded
    to a given stroke width"): the line is offset by at most [d] along
    its normals, which are the rays from the origin, and the flat caps
    add nothing beyond its two ends. *)
Definition buffer_flat (s : shape) (d : R) : shape :=
  fun p =>
    0 <= d /\
    exists q k, s q /\ 0 < k /\ p = (k * px q, k * py q) /\
                (k - 1) * (k - 1) * dist2 q (0, 0) <= d * d.

(** Modelled from the spec: [shape.boundary] of the geometry library:
    the points with points of the shape and of its complement
    arbitrarily close. *)
Definition boundary (s : shape) : shape :=
  fun p => forall eps, 0 < eps ->
    (exists q, s q /\ dist2 p q < eps * eps) /\
    (exists q, ~ s q /\ dist2 p q < eps * eps).

(** Modelled from the spec: the "boolean polygon operations"
    [a.union(b)] / [draw.union], [a.intersection(b)] and
    [draw.subtract(a, b)]. *)
Definition union (a b : shape) : shape := fun p => a p \/ b p.
Definition intersection (a b : shape) : shape := fun p => a p /\ b p.
Definition subtract (a b : shape) : shape := fun p => a p /\ ~ b p.

(** Modelled from the spec: [draw.rectangle(w, h)], the axis-parallel
    box of width [w] and height [h] centred at the origin. *)
Definition rectangle (w h : R) : shape :=
  fun p => - (w / 2) <= px p <= w / 2 /\ - (h / 2) <= py p <= h / 2.

(** *** Polygons from vertex lists *)

(** Twice the signed area of the triangle [a b p]. *)
Definition cross (a b p : point) : R :=
  (px b - px a) * (py p - py a) - (py b - py a) * (px p - px a).

Definition between (u v x : R) : Prop := u <= x <= v \/ v <= x <= u.

Definition on_segment (a b p : point) : Prop :=
  cross a b p = 0 /\ between (px a) (px b) (px p)
                  /\ between (py a) (py b) (py p).

(** The ray going up from [p] meets the edge [a b]; an edge owns its
    left end and not its right end, a vertical edge is never met. *)
Definition crosses (a b p : point) : Prop :=
  (px a <= px p < px b /\ cross a b p < 0) \/
  (px b <= px p < px a /\ 0 < cross a b p).

Fixpoint edges_from (first : point) (vs : list point)
  : list (point * point) :=
  match vs with
  | [] => []
  | a :: tl =>
      match tl with
      | [] => [(a, first)]
      | b :: _ => (a, b) :: edges_from first tl
      end
  end.

(** The edges of the ring through [vs], closing edge included. *)
Definition edges (vs : list point) : list (point * point) :=
  match vs with
  | [] => []
  | v :: _ => edges_from v vs
  end.

Fixpoint odd_crossings (p : point) (es : list (point * point)) : Prop :=
  match es with
  | [] => False
  | (a, b) :: es' =>
      (crosses a b p /\ ~ odd_crossings p es') \/
      (~ crosses a b p /\ odd_crossings p es')
  end.

Fixpoint on_ring (p : point) (es : list (point * point)) : Prop :=
  match es with
  | [] => False
  | (a, b) :: es' => on_segment a b p \/ on_ring p es'
  end.

(** Modelled from the spec: [draw.Polygon(vertices)] of the geometry
    library: the closed region inside the ring through the vertices,
    by the even-odd rule, together with the ring itself. *)
Definition Polygon (vs : list point) : shape :=
  fun p => on_ring p (edges vs) \/ odd_crossings p (edges vs).

(** Modelled from the spec: [draw.LineString(vertices)]; only its
    coordinate list is ever used. *)
Definition LineString (vs : list point) : coords := vs.

(** *** Geometries and the affine maps *)

Inductive geometry : Type :=
| Area (s : shape)
| Line (c : coords).

Definition geom_coords (g : geometry) : coords :=
  match g with
  | Line c => c
  | Area _ => []
  end.

Definition translate_pt (xoff yoff : R) (p : point) : point :=
  (px p + xoff, py p + yoff).

(** Rotation by [angle] degrees, counter-clockwise, about [origin]. *)
Definition rotate_pt (angle : R) (origin p : point) : point :=
  let a := angle * PI / 180 in
  let x := px p - px origin in
  let y := py p - py origin in
  (px origin + (x * cos a - y * sin a),
   py origin + (x * sin a + y * cos a)).

(** Modelled from the spec: [draw.translate(g, xoff, yoff)]
    ("rotation/translation"). *)
Definition translate (g : geometry) (xoff yoff : R) : geometry :=
  match g with
  | Area s => Area (fun p => s (translate_pt (- xoff) (- yoff) p))
  | Line c => Line (map (translate_pt xoff yoff) c)
  end.

(** Modelled from the spec: [draw.rotate(g, angle, origin)], the angle
    in degrees. *)
Definition rotate (g : geometry) (angle : R) (origin : point) : geometry :=
  match g with
  | Area s => Area (fun p => s (rotate_pt (- angle) origin p))
  | Line c => Line (map (rotate_pt angle origin) c)
  end.

(** Both maps applied to a Python list of geometries. *)
Definition translate_all (gs : list geometry) (xoff yoff : R) :=
  map (fun g => translate g xoff yoff) gs.
Definition rotate_all (gs : list geometry) (angle : R) (origin : point) :=
  map (fun g => rotate g angle origin) gs.

(** The region of a geometry; a line string has none. *)
Definition region (g : geometry) : shape :=
  match g with
  | Area s => s
  | Line _ => fun _ => False
  end.

(** Two geometries describe the same thing. *)
Definition geom_same (g1 g2 : geometry) : Prop :=
  match g1, g2 with
  | Area s1, Area s2 => same s1 s2
  | Line c1, Line c2 => c1 = c2
  | _, _ => False
  end.

End Draw.
Import Draw.

(** ** The host design: geometry table and pin registry *)

Module Host.

Inductive kind : Type := poly | junction.

Record qgeometry_row : Type := mk_row {
  row_kind : kind;
  row_name : string;
  row_geom : geometry;
  row_layer : Z;
  row_subtract : bool;
  row_width : option R
}.

Record pin_row : Type := mk_pin {
  pin_name : string;
  pin_points : coords;
  pin_width : R
}.

Record design : Type := mk_design {
  render_mode : string;
  qgeometry : list qgeometry_row;
  pins : list pin_row
}.

Definition fresh (mode : string) : design := mk_design mode [] [].

(** Modelled from the spec: the host's shape registration, "add
    geometry of kind {poly, junction}, keyed by name, with layer and
    additive/subtractive flag"; one row per entry of the dictionary. *)
Definition add_qgeometry (k : kind) (geoms : list (string * geometry))
    (layer : Z) (sub : bool) (width : option R) (d : design) : design :=
  mk_design (render_mode d)
    (qgeometry d ++
       map (fun ng => mk_row k (fst ng) (snd ng) layer sub width) geoms)
    (pins d).

(** Modelled from the spec: the host's pin registration, "add pin of
    name, anchor line, width". *)
Definition add_pin (name : string) (points : coords) (width : R)
    (d : design) : design :=
  mk_design (render_mode d) (qgeometry d)
    (pins d ++ [mk_pin name points width]).

Definition row_same (r1 r2 : qgeometry_row) : Prop :=
  row_kind r1 = row_kind r2 /\ row_name r1 = row_name r2 /\
  geom_same (row_geom r1) (row_geom r2) /\
  row_layer r1 = row_layer r2 /\ row_subtract r1 = row_subtract r2 /\
  row_width r1 = row_width r2.

End Host.
Import Host.

(** ** [xy_tip.py]: the launch tip *)

Module XYTip.

(** The parsed options [self.p]; [pos_x], [pos_y], [orientation] and
    [layer] are the options every component inherits. *)
Record options : Type := mk_options {
  trace_width : R;
  trace_gap : R;
  lead_length : R;
  tip_width : R;
  tip_height : R;
  tip_gap : R;
  taper_height : R;
  tip_fillet : R;
  pos_x : R;
  pos_y : R;
  orientation : R;
  layer : Z
}.

(** [default_options], in millimetres; [cpw_width] and [cpw_gap] are
    design variables of the host, 10um and 6um there. *)
Definition default_options : options :=
  mk_options (10 / 1000) (6 / 1000) (10 / 1000) (5 / 1000) (100 / 1000)
             (3 / 1000) (50 / 1000) (1 / 1000) 0 0 0 1%Z.

Section Make.
Variable p : options.

Let trace_width_half := trace_width p / 2.
Let tip_width_half := tip_width p / 2.

(** [xy_tip] as first assigned: the taper-and-pad polygon. *)
Definition xy_tip_polygon : shape :=
  Polygon [
    (0, trace_width_half);
    (- taper_height p, tip_width_half);
    (- (tip_height p + taper_height p), tip_width_half);
    (- (tip_height p + taper_height p), - tip_width_half);
    (- taper_height p, - tip_width_half);
    (0, - trace_width_half);
    (lead_length p, - trace_width_half);
    (lead_length p, trace_width_half);
    (0, trace_width_half)
  ].

Definition round_tip_circle_top : shape :=
  buffer (Point (- (tip_height p + taper_height p - tip_fillet p))
                (tip_width_half - tip_fillet p))
         (tip_fillet p).

Definition round_tip_negative_top : shape :=
  subtract
    (Polygon [
       (- (tip_height p + taper_height p - tip_fillet p), tip_width_half);
       (- (tip_height p + taper_height p), tip_width_half);
       (- (tip_height p + taper_height p), tip_width_half - tip_fillet p);
       (- (tip_height p + taper_height p - tip_fillet p),
        tip_width_half - tip_fillet p) ])
    round_tip_circle_top.

Definition round_tip_circle_bottom : shape :=
  buffer (Point (- (tip_height p + taper_height p - tip_fillet p))
                (- (tip_width_half - tip_fillet p)))
         (tip_fillet p).

Definition round_tip_negative_bottom : shape :=
  subtract
    (Polygon [
       (- (tip_height p + taper_height p - tip_fillet p), - tip_width_half);
       (- (tip_height p + taper_height p), - tip_width_half);
       (- (tip_height p + taper_height p),
        - (tip_width_half - tip_fillet p));
       (- (tip_height p + taper_height p - tip_fillet p),
        - (tip_width_half - tip_fillet p)) ])
    round_tip_circle_bottom.

Definition round_tip_negative : shape :=
  union round_tip_negative_top round_tip_negative_bottom.

(** [xy_tip] after the rounding of the two outer pad corners. *)
Definition xy_tip : shape := subtract xy_tip_polygon round_tip_negative.

Definition pocket : shape :=
  Polygon [
    (0, trace_width_half + trace_gap p);
    (- taper_height p, tip_width_half + tip_gap p);
    (- (tip_height p + taper_height p + tip_gap p),
     tip_width_half + tip_gap p);
    (- (tip_height p + taper_height p + tip_gap p),
     - (tip_width_half + tip_gap p));
    (- taper_height p, - (tip_width_half + tip_gap p));
    (0, - (trace_width_half + trace_gap p));
    (lead_length p, - (trace_width_half + trace_gap p));
    (lead_length p, trace_width_half + trace_gap p);
    (0, trace_width_half + trace_gap p)
  ].

Definition main_pin_line : coords :=
  LineString [ (lead_length p, trace_width_half);
               (lead_length p, - trace_width_half) ].

(** [polys1] before the rotation and the translation. *)
Definition polys1 : list geometry :=
  [Line main_pin_line; Area xy_tip; Area pocket].

Definition make (d : design) : design :=
  let polys1 := rotate_all polys1 (orientation p) (0, 0) in
  let polys1 := translate_all polys1 (pos_x p) (pos_y p) in
  match polys1 with
  | [main_pin_line; xy_tip; pocket] =>
      let d := add_qgeometry poly [("xy_tip"%string, xy_tip)]
                 (layer p) false None d in
      let d := add_qgeometry poly [("pocket"%string, pocket)]
                 (layer p) true None d in
      add_pin "tie" (geom_coords main_pin_line) (trace_width p) d
  | _ => d
  end.

End Make.

End XYTip.

(** ** [turtle_qubit.py]: the transmon with claw couplers *)

Module TurtleQubit.

(** One entry of [connection_pads], parsed. *)
Record pad_options : Type := mk_pad {
  res_arc : R;
  res_dist : R;
  res_ext : R;
  res_angle : R;
  res_claw_width : R;
  res_claw_rounding : R;
  res_s : R;
  res_g : bool;
  res_g_s : R;
  cpw_width : R;
  cpw_gap : R
}.

(** The parsed options; [connection_pads] keeps the insertion order of
    the Python dictionary. *)
Record options : Type := mk_options {
  rad_i : R;
  gap : R;
  jj_w : R;
  pos_x : R;
  pos_y : R;
  rotation : R;
  connection_pads : list (string * pad_options)
}.

(** [_default_connection_pads], in millimetres. *)
Definition default_connection_pad : pad_options :=
  mk_pad (50 / 1000) (25 / 1000) (25 / 1000) 90 (10 / 1000) (2 / 1000)
         (6 / 1000) false (2 / 1000) (12 / 1000) (12 / 1000).

(** [default_options] with the connection pads [pads]. *)
Definition default_options (pads : list (string * pad_options)) : options :=
  mk_options (125 / 1000) (25 / 1000) (10 / 1000) 1 1 0 pads.

Fixpoint lookup (name : string) (pads : list (string * pad_options))
  : option pad_options :=
  match pads with
  | [] => None
  | (n, pc) :: tl => if String.eqb name n then Some pc else lookup name tl
  end.

(** *** [make_turtle] *)

(** [objects] before the rotation and the translation. *)
Definition turtle_objects (p : options) (d : design) : list geometry :=
  let inner_pad := buffer (Point 0 0) (rad_i p) in
  let pocket := buffer (Point 0 0) (rad_i p + gap p) in
  let '(inner_pad, pocket) :=
    if String.eqb (render_mode d) "simulate" then
      let jj_port := rectangle (jj_w p) (1 / 1000) in
      let jj_p := jj_port in
      let jj_p1 := region (translate (Area jj_p) 0 (- rad_i p)) in
      let jj_p2 := region (translate (Area jj_p) 0 (- (rad_i p + gap p))) in
      (union inner_pad jj_p1, subtract pocket jj_p2)
    else (inner_pad, pocket) in
  let rect_jj := LineString [ (0, - (rad_i p + gap p - 5 / 10000));
                              (0, - (rad_i p + 5 / 10000)) ] in
  [Area inner_pad; Area pocket; Line rect_jj].

Definition make_turtle (p : options) (d : design) : design :=
  let objects := turtle_objects p d in
  let objects := rotate_all objects (rotation p) (0, 0) in
  let objects := translate_all objects (pos_x p) (pos_y p) in
  match objects with
  | [inner_pad; pocket; rect_jj] =>
      let d := add_qgeometry poly [("Qubit"%string, inner_pad)]
                 1 false None d in
      let d := add_qgeometry poly [("Pocket"%string, pocket)]
                 1 true None d in
      add_qgeometry junction [("rect_jj"%string, rect_jj)]
        1 false (Some (jj_w p)) d
  | _ => d
  end.

(** *** The claws *)

(** The wedge [claw_inter] that clips the circle to the arc. *)
Definition claw_inter (r theta res_angle res_ext : R) : shape :=
  Polygon [
    (0, 0);
    (r * cos (- PI / 2 + res_angle - theta / 2),
     r * sin (- PI / 2 + res_angle - theta / 2));
    ((r + res_ext) * cos (- PI / 2 + res_angle),
     (r + res_ext) * sin (PI / 2 + res_angle));
    (r * cos (- PI / 2 + res_angle + theta / 2),
     r * sin (- PI / 2 + res_angle + theta / 2)) ].

(** "Round the claw": the three statements after that comment. *)
Definition round_claw (res_claw : shape) (res_claw_rounding : R) : shape :=
  let res_claw_cutout :=
    subtract (buffer res_claw res_claw_rounding) res_claw in
  let res_claw_cutout_buffer := buffer res_claw_cutout res_claw_rounding in
  intersection res_claw
    (buffer (subtract (buffer res_claw (2 * res_claw_rounding))
                      res_claw_cutout_buffer)
            res_claw_rounding).

Section Claw.
Variable p : options.
Variable pc : pad_options.

(** Radius of the circle the arc of [make_claw] is cut from. *)
Definition claw_circle_radius : R :=
  rad_i p + res_dist pc + 0.5 * res_claw_width pc.

(** [r] and [theta] of [make_claw]. *)
Definition claw_r : R := rad_i p + res_dist pc + res_claw_width pc.
Definition claw_theta : R := res_arc pc / claw_r.

(** [res_claw] of [make_claw] after the stroke, before the rounding. *)
Definition claw_stroke : shape :=
  let claw_rad := boundary (buffer (Point 0 0) claw_circle_radius) in
  let r := claw_r in
  let theta := claw_theta in
  let res_angle := res_angle pc * PI / 180 in
  let claw_inter := claw_inter r theta res_angle (res_ext pc) in
  let claw_rad := intersection claw_rad claw_inter in
  buffer_flat claw_rad (0.5 * res_claw_width pc).

(** [cpw_arm] and [port_line] of [make_claw], placed. *)
Definition claw_polys : list geometry :=
  let cpw_arm :=
    rectangle (cpw_width pc) (res_ext pc + 0.5 * res_claw_width pc) in
  let port_line :=
    LineString
      [ (cpw_width pc / 2, - (res_ext pc + res_claw_width pc / 2) / 2);
        (- cpw_width pc / 2, - (res_ext pc + res_claw_width pc / 2) / 2) ]
  in
  let polys := [Area cpw_arm; Line port_line] in
  let polys :=
    translate_all polys 0
      (- (rad_i p + res_dist pc
          + 0.5 * (res_claw_width pc + res_ext pc))) in
  rotate_all polys (res_angle pc) (0, 0).

(** [objects] of [make_claw] before the final rotation and
    translation. *)
Definition claw_objects : list geometry :=
  let res_claw := claw_stroke in
  match claw_polys with
  | [cpw_arm; port_line] =>
      let claw_gap := buffer res_claw (res_s pc) in
      let cpw_gap :=
        rectangle (cpw_width pc + 2 * cpw_gap pc)
                  (res_ext pc + 0.5 * res_claw_width pc) in
      let cpw_gap :=
        translate (Area cpw_gap) 0
          (- (rad_i p + res_dist pc
              + 0.5 * (res_claw_width pc + res_ext pc))) in
      let cpw_gap := rotate cpw_gap (res_angle pc) (0, 0) in
      let res_claw := round_claw res_claw (res_claw_rounding pc) in
      let res_claw := union res_claw (region cpw_arm) in
      let res_gap := union claw_gap (region cpw_gap) in
      [Area res_claw; Area res_gap; port_line]
  | _ => []
  end.

(** Radius of the circle the arc of [make_grounded_claw] is cut
    from. *)
Definition grounded_circle_radius : R :=
  rad_i p + res_dist pc + 0.5 * res_claw_width pc
  + res_s pc + res_g_s pc.

(** [r] and [theta] of [make_grounded_claw]. *)
Definition grounded_r : R :=
  rad_i p + res_dist pc + res_claw_width pc + res_s pc.
Definition grounded_theta : R := res_arc pc / grounded_r.

Definition grounded_stroke : shape :=
  let claw_rad := boundary (buffer (Point 0 0) grounded_circle_radius) in
  let r := grounded_r in
  let theta := grounded_theta in
  let res_angle := res_angle pc * PI / 180 in
  let claw_inter := claw_inter r theta res_angle (res_ext pc) in
  let claw_rad := intersection claw_rad claw_inter in
  buffer_flat claw_rad (0.5 * res_claw_width pc).

Definition grounded_polys : list geometry :=
  let cpw_arm :=
    rectangle (cpw_width pc) (res_ext pc + 0.5 * res_claw_width pc) in
  let end_of_coupler := - (res_ext pc + res_claw_width pc / 2) / 2 in
  let port_line :=
    LineString [ (cpw_width pc / 2, end_of_coupler);
                 (- cpw_width pc / 2, end_of_coupler) ] in
  let polys := [Area cpw_arm; Line port_line] in
  let polys :=
    translate_all polys 0
      (- (rad_i p + res_dist pc
          + 0.5 * (res_claw_width pc + res_ext pc)
          + res_s pc + res_g_s pc)) in
  rotate_all polys (res_angle pc) (0, 0).

(** [objects] of [make_grounded_claw] before the final rotation and
    translation. *)
Definition grounded_objects : list geometry :=
  let res_claw := grounded_stroke in
  match grounded_polys with
  | [cpw_arm; port_line] =>
      let claw_gap := buffer res_claw (res_s pc) in
      let cpw_gap :=
        rectangle (cpw_width pc + 2 * cpw_gap pc)
                  (res_ext pc + 0.5 * res_claw_width pc) in
      let cpw_gap :=
        translate (Area cpw_gap) 0
          (- (rad_i p + res_dist pc
              + 0.5 * (res_claw_width pc + res_ext pc)
              + res_s pc + res_g_s pc)) in
      let cpw_gap := rotate cpw_gap (res_angle pc) (0, 0) in
      let res_claw := union res_claw (region cpw_arm) in
      let res_gap := union claw_gap (region cpw_gap) in
      [Area res_claw; Area res_gap; port_line]
  | _ => []
  end.

End Claw.

(** The tail both claw functions share: move into chip coordinates and
    register. *)
Definition register_claw (p : options) (pc : pad_options) (name : string)
    (objects : list geometry) (d : design) : design :=
  let objects := rotate_all objects (rotation p) (0, 0) in
  let objects := translate_all objects (pos_x p) (pos_y p) in
  match objects with
  | [res_claw; res_gap; port_line] =>
      let d := add_qgeometry poly [("res_claw"%string, res_claw)]
                 1 false None d in
      let d := add_qgeometry poly [("poly5"%string, res_gap)]
                 1 true None d in
      add_pin name (geom_coords port_line) (cpw_width pc) d
  | _ => d
  end.

Definition make_claw (p : options) (name : string) (d : design) : design :=
  match lookup name (connection_pads p) with
  | Some pc => register_claw p pc name (claw_objects p pc) d
  | None => d
  end.

Definition make_grounded_claw (p : options) (name : string) (d : design)
  : design :=
  match lookup name (connection_pads p) with
  | Some pc => register_claw p pc name (grounded_objects p pc) d
  | None => d
  end.

(** The loop of [make] over the names of [connection_pads]. *)
Fixpoint make_pads (p : options) (names : list string) (d : design)
  : design :=
  match names with
  | [] => d
  | name :: tl =>
      let d :=
        match lookup name (connection_pads p) with
        | Some pc =>
            if res_g pc then make_grounded_claw p name d
            else make_claw p name d
        | None => d
        end in
      make_pads p tl d
  end.

Definition make (p : options) (d : design) : design :=
  let d := make_turtle p d in
  make_pads p (map fst (connection_pads p)) d.

End TurtleQubit.

(** ** Descriptions used to state the properties *)

Module Describe.

(** The ring both polygons of [XYTip.make] are instances of: lead of
    half-width [W] from [0] to [L], taper of length [h], pad of
    half-width [T] reaching to [- X]. *)
Definition tip_ring (W T X h L : R) : list point :=
  [ (0, W); (- h, T); (- X, T); (- X, - T); (- h, - T); (0, - W);
    (L, - W); (L, W); (0, W) ].

(** The region that ring encloses, column by column. *)
Definition tip_region (W T X h L : R) : shape :=
  fun p =>
    (- X <= px p <= - h /\ - T <= py p <= T) \/
    (- h <= px p <= 0 /\
     - (h * W + (W - T) * px p) <= h * py p <= h * W + (W - T) * px p) \/
    (0 <= px p <= L /\ - W <= py p <= W).

(** The ring of an axis-parallel box, in the vertex order of the corner
    squares of [XYTip.make]. *)
Definition box_ring (x0 x1 ya yb : R) : list point :=
  [ (x1, ya); (x0, ya); (x0, yb); (x1, yb) ].

Definition box_region (x0 x1 ya yb : R) : shape :=
  fun p => x0 <= px p <= x1 /\ between ya yb (py p).

(** All lengths of an [XYTip] strictly positive. *)
Definition tip_positive (p : XYTip.options) : Prop :=
  0 < XYTip.trace_width p /\ 0 < XYTip.trace_gap p /\
  0 < XYTip.lead_length p /\ 0 < XYTip.tip_width p /\
  0 < XYTip.tip_height p /\ 0 < XYTip.tip_gap p /\
  0 < XYTip.taper_height p.


(** A component step only appends to the registries, and what it
    appends depends on the host through the render mode alone. *)
Definition appends (f : design -> design) : Prop :=
  forall d,
    render_mode (f d) = render_mode d /\
    qgeometry (f d) = qgeometry d ++ qgeometry (f (fresh (render_mode d))) /\
    pins (f d) = pins d ++ pins (f (fresh (render_mode d))).

(** The box a launch rectangle of [make_turtle] covers once it is moved
    to height [- r]. *)
Definition launch_box (w r : R) : shape :=
  fun q => - (w / 2) <= px q <= w / 2 /\
           - r - 1 / 2000 <= py q <= - r + 1 / 2000.

(** Moving a local geometry into chip coordinates. *)
Definition to_chip (angle x y : R) (g : geometry) : geometry :=
  translate (rotate g angle (0, 0)) x y.

(** A pad with another rounding radius. *)
Definition with_rounding (pc : TurtleQubit.pad_options) (rounding : R)
  : TurtleQubit.pad_options :=
  TurtleQubit.mk_pad
    (TurtleQubit.res_arc pc) (TurtleQubit.res_dist pc)
    (TurtleQubit.res_ext pc) (TurtleQubit.res_angle pc)
    (TurtleQubit.res_claw_width pc) rounding (TurtleQubit.res_s pc)
    (TurtleQubit.res_g pc) (TurtleQubit.res_g_s pc)
    (TurtleQubit.cpw_width pc) (TurtleQubit.cpw_gap pc).

(** The part of a shape the last buffer of [TurtleQubit.round_claw]
    grows from. *)
Definition fillet_core (s : shape) (rho : R) : shape :=
  subtract (buffer s (2 * rho)) (buffer (subtract (buffer s rho) s) rho).

(** The two corner squares of [XYTip.make], of side [tip_fillet], at the
    outer corners of the pad, and the centres of the two circles. *)
Definition corner_square_top (p : XYTip.options) : shape :=
  box_region (- (XYTip.tip_height p + XYTip.taper_height p))
    (- (XYTip.tip_height p + XYTip.taper_height p - XYTip.tip_fillet p))
    (XYTip.tip_width p / 2) (XYTip.tip_width p / 2 - XYTip.tip_fillet p).

Definition corner_square_bottom (p : XYTip.options) : shape :=
  box_region (- (XYTip.tip_height p + XYTip.taper_height p))
    (- (XYTip.tip_height p + XYTip.taper_height p - XYTip.tip_fillet p))
    (- (XYTip.tip_width p / 2))
    (- (XYTip.tip_width p / 2 - XYTip.tip_fillet p)).

End Describe.
Import Describe.


(** * Properties *)

(** ** Elementary facts about the drawing layer *)

Section DrawFacts.

Lemma dist2_refl (p : point) : dist2 p p = 0.
Proof. unfold dist2. ring. Qed.

Lemma dist2_nonneg (p q : point) : 0 <= dist2 p q.
Proof. unfold dist2. apply Rplus_le_le_0_compat; apply Rle_0_sqr. Qed.

Lemma dist2_sym (p q : point) : dist2 p q = dist2 q p.
Proof. unfold dist2. ring. Qed.

Lemma subset_refl (a : shape) : subset a a.
Proof. intros p H. exact H. Qed.

Lemma subset_trans (a b c : shape) : subset a b -> subset b c -> subset a c.
Proof. intros H1 H2 p H. apply H2, H1, H. Qed.

(** Growing by a non-negative distance keeps every point. *)
Lemma buffer_grows (s : shape) (d : R) : 0 <= d -> subset s (buffer s d).
Proof.
  intros Hd p Hp. left. split; [exact Hd|].
  exists p. split; [exact Hp|]. rewrite dist2_refl. nra.
Qed.

Lemma buffer_mono (a b : shape) (d : R) :
  subset a b -> subset (buffer a d) (buffer b d).
Proof.
  intros Hab p [[Hd [q [Hq Hpq]]]|[Hd Hall]].
  - left. split; [exact Hd|]. exists q. split; [apply Hab, Hq|exact Hpq].
  - right. split; [exact Hd|]. intros q Hq. apply Hab, Hall, Hq.
Qed.

(** A buffered location is a disk. *)
Lemma buffer_Point (x y d : R) (p : point) :
  0 <= d -> (buffer (Point x y) d p <-> dist2 p (x, y) <= d * d).
Proof.
  intros Hd. unfold buffer, Point. split.
  - intros [[_ [q [-> H]]]|[Hneg _]]; [exact H|lra].
  - intros H. left. split; [exact Hd|]. exists (x, y). split; [reflexivity|exact H].
Qed.


Lemma subtract_subset (a b : shape) : subset (subtract a b) a.
Proof. intros p [H _]. exact H. Qed.

Lemma intersection_subset_l (a b : shape) : subset (intersection a b) a.
Proof. intros p [H _]. exact H. Qed.

(** The affine maps keep inclusions of regions. *)
Lemma translate_subset (a b : shape) (xoff yoff : R) :
  subset a b ->
  subset (region (translate (Area a) xoff yoff))
         (region (translate (Area b) xoff yoff)).
Proof. intros H p. simpl. apply H. Qed.

Lemma rotate_subset (a b : shape) (angle : R) (o : point) :
  subset a b ->
  subset (region (rotate (Area a) angle o)) (region (rotate (Area b) angle o)).
Proof. intros H p. simpl. apply H. Qed.


Lemma rotate_pt_0 (o p : point) : rotate_pt 0 o p = p.
Proof.
  unfold rotate_pt, px, py. destruct p as [x y], o as [ox oy]. simpl.
  replace (0 * PI / 180) with 0 by lra.
  rewrite cos_0, sin_0. f_equal; ring.
Qed.

Lemma rotate_pt_neg_0 (o p : point) : rotate_pt (- 0) o p = p.
Proof. rewrite Ropp_0. apply rotate_pt_0. Qed.

Lemma translate_pt_0 (p : point) : translate_pt 0 0 p = p.
Proof. unfold translate_pt, px, py. destruct p as [x y]. simpl. f_equal; ring. Qed.

Lemma translate_pt_neg_0 (p : point) : translate_pt (- 0) (- 0) p = p.
Proof. rewrite Ropp_0. apply translate_pt_0. Qed.

Lemma map_id_ext {A : Type} (f : A -> A) (l : list A) :
  (forall x, f x = x) -> map f l = l.
Proof. intros H. induction l as [|x l IH]; simpl; [reflexivity|]. now rewrite H, IH. Qed.

Lemma geom_same_refl (g : geometry) : geom_same g g.
Proof. destruct g; simpl; [intros p; tauto|reflexivity]. Qed.

(** Rotating by 0 degrees and then translating by (0, 0) changes
    nothing. *)
Lemma transform_0 (g : geometry) (o : point) :
  geom_same (translate (rotate g 0 o) 0 0) g.
Proof.
  destruct g as [s|c]; simpl.
  - intros p. rewrite translate_pt_neg_0, rotate_pt_neg_0. tauto.
  - rewrite map_map. apply map_id_ext. intros q.
    now rewrite rotate_pt_0, translate_pt_0.
Qed.

End DrawFacts.

(** ** Polygons: the ring of a vertex list and the region it encloses *)

Section PolygonFacts.

Lemma odd_crossings_cons (p a b : point) (es : list (point * point)) :
  odd_crossings p ((a, b) :: es) <->
  (crosses a b p /\ ~ odd_crossings p es) \/
  (~ crosses a b p /\ odd_crossings p es).
Proof. reflexivity. Qed.

Lemma odd_skip (p a b : point) (es : list (point * point)) :
  ~ crosses a b p ->
  (odd_crossings p ((a, b) :: es) <-> odd_crossings p es).
Proof. intros H. rewrite odd_crossings_cons. tauto. Qed.

Lemma odd_flip (p a b : point) (es : list (point * point)) :
  crosses a b p ->
  (odd_crossings p ((a, b) :: es) <-> ~ odd_crossings p es).
Proof. intros H. rewrite odd_crossings_cons. tauto. Qed.

Lemma odd_nil (p : point) : odd_crossings p [] <-> False.
Proof. reflexivity. Qed.

Lemma on_ring_In (p a b : point) (es : list (point * point)) :
  In (a, b) es -> on_segment a b p -> on_ring p es.
Proof.
  induction es as [|[a' b'] es IH]; simpl; [tauto|].
  intros [Heq|Hin] Hs.
  - inversion Heq; subst. now left.
  - right. now apply IH.
Qed.

Lemma on_ring_inv (p : point) (es : list (point * point)) :
  on_ring p es -> exists a b, In (a, b) es /\ on_segment a b p.
Proof.
  induction es as [|[a' b'] es IH]; simpl; [tauto|].
  intros [Hs|Hr].
  - exists a', b'. split; [now left|exact Hs].
  - destruct (IH Hr) as [a [b [Hin Hs]]]. exists a, b. split; [now right|exact Hs].
Qed.

End PolygonFacts.

Ltac not_cross :=
  unfold crosses, cross, px, py; simpl;
  let H1 := fresh in let H2 := fresh in
  intros [[H1 H2]|[H1 H2]]; first [lra | nra].

Ltac yes_cross :=
  unfold crosses, cross, px, py; simpl;
  first [ left; split; [lra|first [lra|nra]]
        | right; split; [lra|first [lra|nra]] ].

Ltac step_in H :=
  first [ rewrite odd_skip in H by not_cross
        | rewrite odd_flip in H by yes_cross ].

Ltac step_goal :=
  first [ rewrite odd_skip by not_cross
        | rewrite odd_flip by yes_cross ].

Ltac on_edge a b :=
  left; apply (on_ring_In _ a b); [simpl; auto 12|];
  unfold on_segment, cross, between, px, py; simpl.

Section TipRing.
Variables W T X h L : R.
Hypothesis HW : 0 <= W.
Hypothesis HT : 0 <= T.
Hypothesis Hh : 0 < h.
Hypothesis HX : h < X.
Hypothesis HL : 0 < L.

Lemma tip_ring_inside (p : point) :
  Polygon (tip_ring W T X h L) p -> tip_region W T X h L p.
Proof.
  destruct p as [x y]. unfold Polygon.
  cbn [edges edges_from tip_ring].
  intros [Hr|Ho].
  - unfold tip_region. cbn [on_ring] in Hr.
    unfold on_segment, cross, between, px, py in Hr; simpl in Hr.
    unfold px, py; simpl.
    destruct Hr as [Hr|[Hr|[Hr|[Hr|[Hr|[Hr|[Hr|[Hr|[Hr|[]]]]]]]]]];
      destruct Hr as [Hc [Hx Hy]].
    + right; left. split; [lra|]. destruct Hx as [Hx|Hx]; [lra|]. nra.
    + left. nra.
    + left. nra.
    + left. nra.
    + right; left. split; [lra|]. destruct Hx as [Hx|Hx]; [|lra]. nra.
    + right; right. nra.
    + right; right. nra.
    + right; right. nra.
    + right; right. nra.
  - unfold tip_region, px, py; simpl.
    destruct (Rlt_le_dec x (- X)) as [H1|H1].
    { repeat step_in Ho. tauto. }
    destruct (Rlt_le_dec x (- h)) as [H2|H2].
    { destruct (Rlt_le_dec y T) as [Hy1|Hy1];
      destruct (Rlt_le_dec y (- T)) as [Hy2|Hy2];
      repeat step_in Ho; try tauto; left; lra. }
    destruct (Rlt_le_dec x 0) as [H3|H3].
    { destruct (Rlt_le_dec (h * y) (h * W + (W - T) * x)) as [Hy1|Hy1];
      destruct (Rlt_le_dec (h * y) (- (h * W + (W - T) * x))) as [Hy2|Hy2];
      repeat step_in Ho; try tauto; right; left; nra. }
    destruct (Rlt_le_dec x L) as [H4|H4].
    { destruct (Rlt_le_dec y W) as [Hy1|Hy1];
      destruct (Rlt_le_dec y (- W)) as [Hy2|Hy2];
      repeat step_in Ho; try tauto; right; right; lra. }
    repeat step_in Ho. tauto.
Qed.


Lemma tip_ring_outside (p : point) :
  tip_region W T X h L p -> Polygon (tip_ring W T X h L) p.
Proof.
  destruct p as [x y]. unfold Polygon, tip_region, px, py; simpl fst; simpl snd.
  cbn [edges edges_from tip_ring].
  intros [[Hx Hy]|[[Hx Hy]|[Hx Hy]]].
  - destruct (Req_dec x (- h)) as [He|He].
    { subst x. destruct (Req_dec y T) as [HyT|HyT].
      - subst y. on_edge (- h, T) (- X, T). repeat split; lra.
      - destruct (Req_dec y (- T)) as [HyB|HyB].
        + subst y. on_edge (- X, - T) (- h, - T). repeat split; lra.
        + right. repeat step_goal. tauto. }
    destruct (Req_dec y T) as [HyT|HyT].
    { subst y. on_edge (- h, T) (- X, T). repeat split; lra. }
    right. repeat step_goal. tauto.
  - destruct (Req_dec x 0) as [He|He].
    { subst x. destruct (Req_dec y W) as [HyT|HyT].
      - subst y. on_edge (L, W) (0, W). repeat split; lra.
      - destruct (Req_dec y (- W)) as [HyB|HyB].
        + subst y. on_edge (0, - W) (L, - W). repeat split; lra.
        + right. assert (- W < y < W) by nra. repeat step_goal. tauto. }
    destruct (Req_dec (h * y) (h * W + (W - T) * x)) as [HyT|HyT].
    { on_edge (0, W) (- h, T). split; [lra|]. split; [lra|].
      destruct (Rle_dec W T); [left|right]; nra. }
    right. repeat step_goal. tauto.
  - destruct (Req_dec x L) as [He|He].
    { subst x. on_edge (L, - W) (L, W). split; [lra|]. split; lra. }
    destruct (Req_dec y W) as [HyT|HyT].
    { subst y. on_edge (L, W) (0, W). repeat split; lra. }
    right. repeat step_goal. tauto.
Qed.

End TipRing.

Section BoxRing.
Variables x0 x1 ya yb : R.
Hypothesis Hx01 : x0 < x1.

Lemma box_ring_inside (p : point) :
  Polygon (box_ring x0 x1 ya yb) p -> box_region x0 x1 ya yb p.
Proof.
  destruct p as [x y]. unfold Polygon, box_region, between, px, py.
  cbn [edges edges_from box_ring]. simpl fst; simpl snd.
  intros [Hr|Ho].
  - cbn [on_ring] in Hr.
    unfold on_segment, cross, between, px, py in Hr; simpl in Hr.
    destruct Hr as [Hr|[Hr|[Hr|[Hr|[]]]]]; destruct Hr as [Hc [Hx Hy]];
      (split; [lra|]); first [lra | nra].
  - destruct (Rlt_le_dec x x0) as [H1|H1].
    { repeat step_in Ho. tauto. }
    destruct (Rlt_le_dec x x1) as [H2|H2].
    { destruct (Rlt_le_dec y ya) as [Hy1|Hy1];
      destruct (Rlt_le_dec y yb) as [Hy2|Hy2];
      repeat step_in Ho; try tauto; split; lra. }
    repeat step_in Ho. tauto.
Qed.

Lemma box_ring_outside (p : point) :
  box_region x0 x1 ya yb p -> Polygon (box_ring x0 x1 ya yb) p.
Proof.
  destruct p as [x y]. unfold Polygon, box_region, between, px, py.
  cbn [edges edges_from box_ring]. simpl fst; simpl snd.
  intros [Hx Hy].
  destruct (Req_dec x x1) as [He|He].
  { subst x. on_edge (x1, yb) (x1, ya). split; [lra|]. split; lra. }
  destruct (Req_dec y ya) as [Ha|Ha].
  { subst y. on_edge (x1, ya) (x0, ya). repeat split; lra. }
  destruct (Req_dec y yb) as [Hb|Hb].
  { subst y. on_edge (x0, yb) (x1, yb). repeat split; lra. }
  right. destruct Hy as [Hy|Hy]; repeat step_goal; tauto.
Qed.

End BoxRing.

(** ** Cutouts and conductors *)

Section Containment.

Lemma tip_region_grows (W T X h L tg g : R) :
  0 <= W -> 0 <= T -> 0 < h -> h < X -> 0 < L -> 0 <= tg -> 0 <= g ->
  subset (tip_region W T X h L) (tip_region (W + tg) (T + g) (X + g) h L).
Proof.
  intros HW HT Hh HX HL Htg Hg [x y]. unfold tip_region, px, py; simpl.
  intros [[Hx Hy]|[[Hx Hy]|[Hx Hy]]].
  - left. lra.
  - right; left. split; [lra|]. nra.
  - right; right. lra.
Qed.

Lemma xy_tip_in_pocket (p : XYTip.options) :
  tip_positive p -> subset (XYTip.xy_tip p) (XYTip.pocket p).
Proof.
  intros (Htw & Htg & Hl & Hw & Hh & Hg & Ht).
  apply subset_trans with (b := XYTip.xy_tip_polygon p).
  { apply subtract_subset. }
  intros q Hq.
  apply (tip_ring_outside (XYTip.trace_width p / 2 + XYTip.trace_gap p)
           (XYTip.tip_width p / 2 + XYTip.tip_gap p)
           (XYTip.tip_height p + XYTip.taper_height p + XYTip.tip_gap p)
           (XYTip.taper_height p) (XYTip.lead_length p)); try lra.
  apply (tip_region_grows (XYTip.trace_width p / 2) (XYTip.tip_width p / 2)
           (XYTip.tip_height p + XYTip.taper_height p)
           (XYTip.taper_height p) (XYTip.lead_length p)); try lra.
  apply tip_ring_inside; try lra. exact Hq.
Qed.



Lemma round_claw_subset (s : shape) (rounding : R) :
  subset (TurtleQubit.round_claw s rounding) s.
Proof. unfold TurtleQubit.round_claw. apply intersection_subset_l. Qed.




End Containment.




(** ** Rounding *)

(** C10.  Corner rounding never enlarges a shape: the rounded claw of
    [make_claw] is a subset of the stroked ring it is computed from, for
    every shape and every rounding radius, and the rounded [xy_tip] is a
    subset of the taper-and-pad polygon, for every parameter set. *)
Theorem rounding_never_enlarges :
  (forall (s : shape) (rounding : R),
     subset (TurtleQubit.round_claw s rounding) s) /\
  (forall (p : TurtleQubit.options) (pc : TurtleQubit.pad_options),
     subset (TurtleQubit.round_claw (TurtleQubit.claw_stroke p pc)
               (TurtleQubit.res_claw_rounding pc))
            (TurtleQubit.claw_stroke p pc)) /\
  (forall p : XYTip.options,
     subset (XYTip.xy_tip p) (XYTip.xy_tip_polygon p)).
Proof.
  split; [|split].
  - intros s r. apply round_claw_subset.
  - intros p pc. apply round_claw_subset.
  - intros p. unfold XYTip.xy_tip. apply subtract_subset.
Qed.

(** ** The claw angle *)



(** ** The move into chip coordinates *)

Section ChipFrame.

Lemma to_chip_0 (g : geometry) : geom_same (to_chip 0 0 0 g) g.
Proof. unfold to_chip. apply transform_0. Qed.

Lemma to_chip_all (gs : list geometry) (angle x y : R) :
  translate_all (rotate_all gs angle (0, 0)) x y = map (to_chip angle x y) gs.
Proof. unfold translate_all, rotate_all. rewrite map_map. reflexivity. Qed.

Lemma to_chip_all_0 (gs : list geometry) :
  Forall2 geom_same (translate_all (rotate_all gs 0 (0, 0)) 0 0) gs.
Proof.
  rewrite to_chip_all. induction gs as [|g gs IH]; simpl; constructor.
  - apply to_chip_0.
  - exact IH.
Qed.

Lemma row_same_geom (k : kind) (n : string) (g1 g2 : geometry) (l : Z)
    (s : bool) (w : option R) :
  geom_same g1 g2 -> row_same (mk_row k n g1 l s w) (mk_row k n g2 l s w).
Proof. intros H. unfold row_same; simpl. tauto. Qed.

End ChipFrame.

(** C7.  Rotating by 0 degrees about the origin and then translating by
    (0, 0) is the identity on every geometry; hence with rotation 0 and
    position (0, 0) the rows [make_turtle], both claws and [XYTip.make]
    register carry the locally built shapes, and the pins the locally
    built anchor lines. *)
Theorem zero_transform_is_identity
    (tq : TurtleQubit.options) (name : string)
    (pc : TurtleQubit.pad_options) (xp : XYTip.options) (d : design) :
  TurtleQubit.rotation tq = 0 ->
  TurtleQubit.pos_x tq = 0 -> TurtleQubit.pos_y tq = 0 ->
  XYTip.orientation xp = 0 ->
  XYTip.pos_x xp = 0 -> XYTip.pos_y xp = 0 ->
  (forall g : geometry,
     geom_same (translate (rotate g 0 (0, 0)) 0 0) g) /\
  (exists rows,
     qgeometry (TurtleQubit.make_turtle tq d) = qgeometry d ++ rows /\
     Forall2 (fun r g => geom_same (row_geom r) g)
       rows (TurtleQubit.turtle_objects tq d)) /\
  (exists c g l rows,
     TurtleQubit.claw_objects tq pc = [c; g; Line l] /\
     qgeometry (TurtleQubit.register_claw tq pc name
                  (TurtleQubit.claw_objects tq pc) d)
     = qgeometry d ++ rows /\
     Forall2 (fun r g => geom_same (row_geom r) g) rows [c; g] /\
     pins (TurtleQubit.register_claw tq pc name
             (TurtleQubit.claw_objects tq pc) d)
     = pins d ++ [mk_pin name l (TurtleQubit.cpw_width pc)]) /\
  (exists c g l rows,
     TurtleQubit.grounded_objects tq pc = [c; g; Line l] /\
     qgeometry (TurtleQubit.register_claw tq pc name
                  (TurtleQubit.grounded_objects tq pc) d)
     = qgeometry d ++ rows /\
     Forall2 (fun r g => geom_same (row_geom r) g) rows [c; g] /\
     pins (TurtleQubit.register_claw tq pc name
             (TurtleQubit.grounded_objects tq pc) d)
     = pins d ++ [mk_pin name l (TurtleQubit.cpw_width pc)]) /\
  (exists rows,
     qgeometry (XYTip.make xp d) = qgeometry d ++ rows /\
     Forall2 (fun r g => geom_same (row_geom r) g)
       rows [Area (XYTip.xy_tip xp); Area (XYTip.pocket xp)] /\
     pins (XYTip.make xp d)
     = pins d ++ [mk_pin "tie" (XYTip.main_pin_line xp)
                    (XYTip.trace_width xp)]).
Proof.
  intros Hr Hx Hy Ho Hxx Hxy.
  assert (Harea : forall s : shape,
            geom_same (translate (rotate (Area s) 0 (0, 0)) 0 0) (Area s)).
  { intros s. apply transform_0. }
  assert (Hline : forall c : coords,
            map (translate_pt 0 0) (map (rotate_pt 0 (0, 0)) c) = c).
  { intros c. rewrite map_map. apply map_id_ext. intros q.
    now rewrite rotate_pt_0, translate_pt_0. }
  split; [|split; [|split; [|split]]].
  - intros g. apply transform_0.
  - unfold TurtleQubit.make_turtle. rewrite Hr, Hx, Hy.
    unfold TurtleQubit.turtle_objects.
    destruct (String.eqb (render_mode d) "simulate");
      cbn [rotate_all translate_all map add_qgeometry qgeometry fst snd];
      (eexists; split; [rewrite <- !app_assoc; reflexivity|]);
      (constructor; [apply Harea|]);
      (constructor; [apply Harea|]);
      (constructor; [|constructor]);
      cbn [row_geom rotate translate geom_same]; apply Hline.
  - unfold TurtleQubit.register_claw. rewrite Hr, Hx, Hy.
    unfold TurtleQubit.claw_objects, TurtleQubit.claw_polys.
    cbn [rotate_all translate_all map rotate translate region
         add_qgeometry add_pin qgeometry pins fst snd geom_coords].
    eexists _, _, _, _. split; [reflexivity|]. split; [|split].
    + rewrite <- !app_assoc. reflexivity.
    + constructor; [apply Harea|]. constructor; [apply Harea|]. constructor.
    + now rewrite Hline.
  - unfold TurtleQubit.register_claw. rewrite Hr, Hx, Hy.
    unfold TurtleQubit.grounded_objects, TurtleQubit.grounded_polys.
    cbn [rotate_all translate_all map rotate translate region
         add_qgeometry add_pin qgeometry pins fst snd geom_coords].
    eexists _, _, _, _. split; [reflexivity|]. split; [|split].
    + rewrite <- !app_assoc. reflexivity.
    + constructor; [apply Harea|]. constructor; [apply Harea|]. constructor.
    + now rewrite Hline.
  - unfold XYTip.make, XYTip.polys1. rewrite Ho, Hxx, Hxy.
    cbn [rotate_all translate_all map rotate translate
         add_qgeometry add_pin qgeometry pins fst snd geom_coords].
    eexists. split; [rewrite <- !app_assoc; reflexivity|]. split.
    + constructor; [apply Harea|]. constructor; [apply Harea|]. constructor.
    + now rewrite Hline.
Qed.

Lemma zero_transform_is_identity_witness :
  exists rows,
    qgeometry (XYTip.make XYTip.default_options (fresh "")) = [] ++ rows /\
    Forall2 (fun r g => geom_same (row_geom r) g)
      rows [Area (XYTip.xy_tip XYTip.default_options);
            Area (XYTip.pocket XYTip.default_options)] /\
    pins (XYTip.make XYTip.default_options (fresh ""))
    = [] ++ [mk_pin "tie" (XYTip.main_pin_line XYTip.default_options)
               (XYTip.trace_width XYTip.default_options)].
Proof.
  refine (proj2 (proj2 (proj2 (proj2
    (zero_transform_is_identity
       (TurtleQubit.mk_options (125 / 1000) (25 / 1000) (10 / 1000) 0 0 0 [])
       "readout" TurtleQubit.default_connection_pad XYTip.default_options
       (fresh "") _ _ _ _ _ _))))); reflexivity.
Defined.

(** ** The pin of the launch tip *)

(** C8.  [XYTip.make] registers exactly one pin.  Its name is 'tie', its
    width is [trace_width], and its anchor line is the image, under the
    rotation by [orientation] and the translation to the position, of
    the segment from [(lead_length, trace_width / 2)] to
    [(lead_length, - trace_width / 2)], which is the edge of the
    [xy_tip] ring that closes the lead. *)
Theorem tie_pin_registered (p : XYTip.options) (d : design) :
  pins (XYTip.make p d)
  = pins d ++
    [ mk_pin "tie"
        (map (fun q => translate_pt (XYTip.pos_x p) (XYTip.pos_y p)
                         (rotate_pt (XYTip.orientation p) (0, 0) q))
             [ (XYTip.lead_length p, XYTip.trace_width p / 2);
               (XYTip.lead_length p, - (XYTip.trace_width p / 2)) ])
        (XYTip.trace_width p) ] /\
  List.length (pins (XYTip.make p (fresh (render_mode d)))) = 1%nat /\
  XYTip.xy_tip_polygon p
  = Polygon (tip_ring (XYTip.trace_width p / 2) (XYTip.tip_width p / 2)
               (XYTip.tip_height p + XYTip.taper_height p)
               (XYTip.taper_height p) (XYTip.lead_length p)) /\
  In ((XYTip.lead_length p, - (XYTip.trace_width p / 2)),
      (XYTip.lead_length p, XYTip.trace_width p / 2))
     (edges (tip_ring (XYTip.trace_width p / 2) (XYTip.tip_width p / 2)
               (XYTip.tip_height p + XYTip.taper_height p)
               (XYTip.taper_height p) (XYTip.lead_length p))).
Proof.
  split; [|split; [|split]].
  - unfold XYTip.make, XYTip.polys1, XYTip.main_pin_line, LineString. simpl.
    reflexivity.
  - reflexivity.
  - reflexivity.
  - simpl. auto 12.
Qed.

(** ** Render mode and the island *)

Lemma launch_rectangle (w r : R) :
  same (region (translate (Area (rectangle w (1 / 1000))) 0 (- r)))
       (launch_box w r).
Proof.
  intros [x y]. unfold launch_box, rectangle, translate_pt, px, py; simpl.
  split; intros H; lra.
Qed.

(** C9.  The island and the pocket of [make_turtle] depend on the render
    mode of the host.  Under 'simulate' the island is the disk of radius
    [rad_i] joined with a launch rectangle of width [jj_w] (and height
    1um) centred on the island's south point, and the pocket is the disk
    of radius [rad_i + gap] minus the same rectangle centred on the
    pocket's south point; under any other mode they are the two plain
    disks.  The registered 'Qubit' and 'Pocket' are these shapes moved
    into chip coordinates. *)
Theorem island_depends_on_render_mode (p : TurtleQubit.options) (d : design) :
  exists island pocket jj,
    TurtleQubit.turtle_objects p d = [Area island; Area pocket; Line jj] /\
    qgeometry (TurtleQubit.make_turtle p d)
    = qgeometry d ++
      [ mk_row poly "Qubit"
          (to_chip (TurtleQubit.rotation p) (TurtleQubit.pos_x p)
             (TurtleQubit.pos_y p) (Area island)) 1 false None;
        mk_row poly "Pocket"
          (to_chip (TurtleQubit.rotation p) (TurtleQubit.pos_x p)
             (TurtleQubit.pos_y p) (Area pocket)) 1 true None;
        mk_row junction "rect_jj"
          (to_chip (TurtleQubit.rotation p) (TurtleQubit.pos_x p)
             (TurtleQubit.pos_y p) (Line jj)) 1 false
          (Some (TurtleQubit.jj_w p)) ] /\
    (render_mode d = "simulate"%string ->
     same island
       (union (buffer (Point 0 0) (TurtleQubit.rad_i p))
              (launch_box (TurtleQubit.jj_w p) (TurtleQubit.rad_i p))) /\
     same pocket
       (subtract
          (buffer (Point 0 0) (TurtleQubit.rad_i p + TurtleQubit.gap p))
          (launch_box (TurtleQubit.jj_w p)
             (TurtleQubit.rad_i p + TurtleQubit.gap p)))) /\
    (render_mode d <> "simulate"%string ->
     island = buffer (Point 0 0) (TurtleQubit.rad_i p) /\
     pocket = buffer (Point 0 0) (TurtleQubit.rad_i p + TurtleQubit.gap p)).
Proof.
  unfold TurtleQubit.make_turtle, TurtleQubit.turtle_objects.
  destruct (String.eqb (render_mode d) "simulate") eqn:E.
  - eexists _, _, _. split; [reflexivity|]. split; [|split].
    + simpl. rewrite <- !app_assoc. reflexivity.
    + intros _. split; intros q; unfold union, subtract;
        rewrite (launch_rectangle _ _ q); tauto.
    + intros Hn. apply String.eqb_eq in E. contradiction.
  - eexists _, _, _. split; [reflexivity|]. split; [|split].
    + simpl. rewrite <- !app_assoc. reflexivity.
    + intros Hs. apply String.eqb_eq in Hs. congruence.
    + intros _. split; reflexivity.
Qed.

Lemma island_depends_on_render_mode_witness :
  (exists q, union (buffer (Point 0 0) (125 / 1000))
               (launch_box (10 / 1000) (125 / 1000)) q /\
             ~ buffer (Point 0 0) (125 / 1000) q) /\
  exists island pocket jj,
    TurtleQubit.turtle_objects (TurtleQubit.default_options [])
      (fresh "simulate")
    = [Area island; Area pocket; Line jj] /\
    same island
      (union (buffer (Point 0 0) (125 / 1000))
             (launch_box (10 / 1000) (125 / 1000))).
Proof.
  split.
  - exists (0, - (1254 / 10000)). split.
    + right. unfold launch_box, px, py; simpl. lra.
    + rewrite buffer_Point by lra. unfold dist2, px, py; simpl. lra.
  - destruct (island_depends_on_render_mode (TurtleQubit.default_options [])
                (fresh "simulate")) as (i & k & jj & E & _ & Hs & _).
    exists i, k, jj. split; [exact E|].
    exact (proj1 (Hs eq_refl)).
Defined.

(** ** Determinism: a make pass only appends *)

Section Appends.

Lemma appends_id : appends (fun d => d).
Proof. intros d. simpl. now rewrite !app_nil_r. Qed.

Lemma appends_add_qgeometry (k : kind) (geoms : list (string * geometry))
    (layer : Z) (sub : bool) (width : option R) :
  appends (add_qgeometry k geoms layer sub width).
Proof. intros d. simpl. now rewrite app_nil_r. Qed.

Lemma appends_add_pin (name : string) (points : coords) (width : R) :
  appends (add_pin name points width).
Proof. intros d. simpl. now rewrite app_nil_r. Qed.

Lemma appends_comp (f g : design -> design) :
  appends f -> appends g -> appends (fun d => g (f d)).
Proof.
  intros Hf Hg d.
  destruct (Hf d) as (Fm & Fq & Fp).
  destruct (Hg (f d)) as (Gm & Gq & Gp).
  destruct (Hg (f (fresh (render_mode d)))) as (Gm' & Gq' & Gp').
  destruct (Hf (fresh (render_mode d))) as (Fm' & _ & _).
  simpl in Fm'. rewrite Fm' in Gq', Gp'. rewrite Fm in Gq, Gp.
  split; [congruence|]. split.
  - rewrite Gq, Gq', Fq. now rewrite app_assoc.
  - rewrite Gp, Gp', Fp. now rewrite app_assoc.
Qed.

(** A step that reads the host only through its render mode. *)
Lemma appends_by_mode (f : string -> design -> design) :
  (forall m, appends (f m)) -> appends (fun d => f (render_mode d) d).
Proof. intros H d. exact (H (render_mode d) d). Qed.

Lemma turtle_objects_mode (p : TurtleQubit.options) (d : design) :
  TurtleQubit.turtle_objects p d
  = TurtleQubit.turtle_objects p (fresh (render_mode d)).
Proof. reflexivity. Qed.

Lemma appends_make_turtle (p : TurtleQubit.options) :
  appends (TurtleQubit.make_turtle p).
Proof.
  apply (appends_by_mode (fun m d =>
    match translate_all
            (rotate_all (TurtleQubit.turtle_objects p (fresh m))
               (TurtleQubit.rotation p) (0, 0))
            (TurtleQubit.pos_x p) (TurtleQubit.pos_y p) with
    | [inner_pad; pocket; rect_jj] =>
        add_qgeometry junction [("rect_jj"%string, rect_jj)] 1 false
          (Some (TurtleQubit.jj_w p))
          (add_qgeometry poly [("Pocket"%string, pocket)] 1 true None
             (add_qgeometry poly [("Qubit"%string, inner_pad)] 1 false None d))
    | _ => d
    end)).
  intros m.
  destruct (translate_all _ _ _) as [|a [|b [|c [|e l]]]];
    try apply appends_id.
  apply (appends_comp (fun d => add_qgeometry poly _ 1 true None
                          (add_qgeometry poly _ 1 false None d))).
  - apply (appends_comp (add_qgeometry poly _ 1 false None));
      apply appends_add_qgeometry.
  - apply appends_add_qgeometry.
Qed.

Lemma appends_register_claw (p : TurtleQubit.options)
    (pc : TurtleQubit.pad_options) (name : string) (objects : list geometry) :
  appends (TurtleQubit.register_claw p pc name objects).
Proof.
  unfold TurtleQubit.register_claw.
  destruct (translate_all _ _ _) as [|a [|b [|c [|e l]]]];
    try apply appends_id.
  apply (appends_comp (fun d => add_qgeometry poly _ 1 true None
                          (add_qgeometry poly _ 1 false None d))).
  - apply (appends_comp (add_qgeometry poly _ 1 false None));
      apply appends_add_qgeometry.
  - apply appends_add_pin.
Qed.

Lemma appends_make_claw (p : TurtleQubit.options) (name : string) :
  appends (TurtleQubit.make_claw p name).
Proof.
  unfold TurtleQubit.make_claw.
  destruct (TurtleQubit.lookup name _);
    [apply appends_register_claw|apply appends_id].
Qed.

Lemma appends_make_grounded_claw (p : TurtleQubit.options) (name : string) :
  appends (TurtleQubit.make_grounded_claw p name).
Proof.
  unfold TurtleQubit.make_grounded_claw.
  destruct (TurtleQubit.lookup name _);
    [apply appends_register_claw|apply appends_id].
Qed.

Lemma appends_make_pads (p : TurtleQubit.options) (names : list string) :
  appends (TurtleQubit.make_pads p names).
Proof.
  induction names as [|name tl IH]; simpl.
  - apply appends_id.
  - apply (appends_comp
             (fun d => match TurtleQubit.lookup name
                               (TurtleQubit.connection_pads p) with
                       | Some pc =>
                           if TurtleQubit.res_g pc
                           then TurtleQubit.make_grounded_claw p name d
                           else TurtleQubit.make_claw p name d
                       | None => d
                       end)); [|exact IH].
    destruct (TurtleQubit.lookup name _) as [pc|]; [|apply appends_id].
    destruct (TurtleQubit.res_g pc);
      [apply appends_make_grounded_claw|apply appends_make_claw].
Qed.

Lemma appends_turtle_make (p : TurtleQubit.options) :
  appends (TurtleQubit.make p).
Proof.
  unfold TurtleQubit.make.
  apply (appends_comp (TurtleQubit.make_turtle p)).
  - apply appends_make_turtle.
  - apply appends_make_pads.
Qed.

Lemma appends_xy_tip_make (p : XYTip.options) : appends (XYTip.make p).
Proof.
  unfold XYTip.make.
  destruct (translate_all _ _ _) as [|a [|b [|c [|e l]]]];
    try apply appends_id.
  apply (appends_comp (fun d => add_qgeometry poly _ (XYTip.layer p) true None
                          (add_qgeometry poly _ (XYTip.layer p) false None d))).
  - apply (appends_comp (add_qgeometry poly _ (XYTip.layer p) false None));
      apply appends_add_qgeometry.
  - apply appends_add_pin.
Qed.

End Appends.

(** C4.  A make pass is deterministic and carries no state of its own:
    on any host state, [TurtleQubit.make] and [XYTip.make] leave the
    render mode alone and append to the two registries exactly the rows
    and pins they produce on an empty host with the same render mode, so
    what is registered (shapes, anchor lines, widths) is a function of
    the options and the render mode only, and a second pass over the
    result registers the same rows and pins again. *)
Theorem make_is_deterministic
    (tq : TurtleQubit.options) (xp : XYTip.options) (d : design) :
  let new_t := TurtleQubit.make tq (fresh (render_mode d)) in
  let new_x := XYTip.make xp (fresh (render_mode d)) in
  (render_mode (TurtleQubit.make tq d) = render_mode d /\
   qgeometry (TurtleQubit.make tq d) = qgeometry d ++ qgeometry new_t /\
   pins (TurtleQubit.make tq d) = pins d ++ pins new_t) /\
  (qgeometry (TurtleQubit.make tq (TurtleQubit.make tq d))
   = (qgeometry d ++ qgeometry new_t) ++ qgeometry new_t /\
   pins (TurtleQubit.make tq (TurtleQubit.make tq d))
   = (pins d ++ pins new_t) ++ pins new_t) /\
  (render_mode (XYTip.make xp d) = render_mode d /\
   qgeometry (XYTip.make xp d) = qgeometry d ++ qgeometry new_x /\
   pins (XYTip.make xp d) = pins d ++ pins new_x) /\
  (qgeometry (XYTip.make xp (XYTip.make xp d))
   = (qgeometry d ++ qgeometry new_x) ++ qgeometry new_x /\
   pins (XYTip.make xp (XYTip.make xp d))
   = (pins d ++ pins new_x) ++ pins new_x).
Proof.
  intros new_t new_x.
  destruct (appends_turtle_make tq d) as (Tm & Tq & Tp).
  destruct (appends_turtle_make tq (TurtleQubit.make tq d)) as (_ & Tq2 & Tp2).
  destruct (appends_xy_tip_make xp d) as (Xm & Xq & Xp).
  destruct (appends_xy_tip_make xp (XYTip.make xp d)) as (_ & Xq2 & Xp2).
  rewrite Tm in Tq2, Tp2. rewrite Xm in Xq2, Xp2.
  subst new_t new_x.
  repeat split; try assumption; congruence.
Qed.


(** ** Bounds from squared distances *)

Section Squares.

Lemma sq_bound (a r : R) : 0 <= r -> a * a <= r * r -> - r <= a <= r.
Proof.
  intros Hr H. split.
  - destruct (Rle_lt_dec (- r) a) as [Hle|Hlt]; [exact Hle|exfalso].
    assert (r * r < (- a) * (- a)) by (apply Rmult_le_0_lt_compat; lra).
    lra.
  - destruct (Rle_lt_dec a r) as [Hle|Hlt]; [exact Hle|exfalso].
    assert (r * r < a * a) by (apply Rmult_le_0_lt_compat; lra).
    lra.
Qed.

Lemma sq_le (a r : R) : - r <= a <= r -> a * a <= r * r.
Proof.
  intros [H1 H2]. destruct (Rle_lt_dec 0 a) as [Ha|Ha].
  - apply Rmult_le_compat; lra.
  - replace (a * a) with ((- a) * (- a)) by ring.
    apply Rmult_le_compat; lra.
Qed.

Lemma sq_mono (a b : R) : 0 <= a -> a <= b -> a * a <= b * b.
Proof. intros Ha Hab. apply Rmult_le_compat; lra. Qed.

Lemma sq_nonneg (a : R) : 0 <= a * a.
Proof. apply Rle_0_sqr. Qed.


End Squares.

(** ** The fillet sequence of [make_claw] *)

Section Fillet.
Variable s : shape.
Variable rho : R.
Hypothesis Hrho : 0 <= rho.

Let core : shape := fillet_core s rho.

Lemma round_claw_inv (p : point) :
  TurtleQubit.round_claw s rho p ->
  s p /\ exists c, core c /\ dist2 p c <= rho * rho.
Proof.
  unfold TurtleQubit.round_claw, intersection.
  intros [Hs [[_ H]|[Hneg _]]]; [|lra].
  split; [exact Hs|]. destruct H as [c [Hc Hd]]. exists c. split; assumption.
Qed.

(** No point outside the shape and within [rho] of it lies within [rho]
    of the core. *)
Lemma core_excludes (c a t : point) :
  core c -> ~ s a -> s t -> dist2 a t <= rho * rho ->
  dist2 c a <= rho * rho -> False.
Proof.
  intros [_ Hc] Ha Ht Hat Hca. apply Hc. left. split; [exact Hrho|].
  exists a. split; [|exact Hca]. split; [|exact Ha].
  left. split; [exact Hrho|]. exists t. split; assumption.
Qed.

Lemma core_in_shape (c t : point) :
  core c -> s t -> dist2 c t <= rho * rho -> s c.
Proof.
  intros Hc Ht Hd. destruct (Classical_Prop.classic (s c)) as [H|H]; [exact H|].
  exfalso. apply (core_excludes c c t Hc H Ht Hd).
  rewrite dist2_refl. nra.
Qed.


End Fillet.

(** ** The fillet sequence on the tip polygon *)

Section TipFillet.
Variables W T X h L rho : R.
Hypothesis HW : 0 <= W.
Hypothesis HT : 0 <= T.
Hypothesis Hh : 0 < h.
Hypothesis HX : h < X.
Hypothesis HL : 0 < L.
Hypothesis Hrho : 0 < rho.

Let S : shape := Polygon (tip_ring W T X h L).







Lemma dist2_col (x y y' r : R) :
  - r <= y - y' <= r -> dist2 (x, y) (x, y') <= r * r.
Proof.
  intros H. unfold dist2, px, py; simpl.
  pose proof (sq_le (y - y') r H). lra.
Qed.


Hypothesis Hfit : 2 * rho <= X - h.



Hypothesis HrT : rho <= T.



End TipFillet.
(** ** The corner rounding of the launch tip against the fillet sequence *)

Section TipRounding.
Variable p : XYTip.options.
Hypothesis Hpos : tip_positive p.
Hypothesis Hrho : 0 < XYTip.tip_fillet p.

Lemma negative_top_iff (q : point) :
  XYTip.round_tip_negative_top p q <->
  corner_square_top p q /\
  ~ dist2 q (- (XYTip.tip_height p + XYTip.taper_height p - XYTip.tip_fillet p),
             XYTip.tip_width p / 2 - XYTip.tip_fillet p)
    <= XYTip.tip_fillet p * XYTip.tip_fillet p.
Proof.
  unfold XYTip.round_tip_negative_top, XYTip.round_tip_circle_top, subtract,
    corner_square_top.
  rewrite buffer_Point by lra. split; intros [Hs Hd]; (split; [|exact Hd]).
  - apply box_ring_inside; [lra|exact Hs].
  - apply box_ring_outside in Hs. exact Hs.
Qed.

Lemma negative_bottom_iff (q : point) :
  XYTip.round_tip_negative_bottom p q <->
  corner_square_bottom p q /\
  ~ dist2 q (- (XYTip.tip_height p + XYTip.taper_height p - XYTip.tip_fillet p),
             - (XYTip.tip_width p / 2 - XYTip.tip_fillet p))
    <= XYTip.tip_fillet p * XYTip.tip_fillet p.
Proof.
  unfold XYTip.round_tip_negative_bottom, XYTip.round_tip_circle_bottom,
    subtract, corner_square_bottom.
  rewrite buffer_Point by lra. split; intros [Hs Hd]; (split; [|exact Hd]).
  - apply box_ring_inside; [lra|exact Hs].
  - apply box_ring_outside in Hs. exact Hs.
Qed.

Hypothesis Hhalf : XYTip.tip_fillet p < XYTip.tip_width p / 2.
Hypothesis Hfit : 2 * XYTip.tip_fillet p <= XYTip.tip_height p.



End TipRounding.




(** ** The grounded claw against the plain claw *)



(** * Further properties of the two components *)

(** ** What [TurtleQubit.make] writes to the registries *)

Section Registries.
Variable p : TurtleQubit.options.

Lemma lookup_found (name : string)
    (pads : list (string * TurtleQubit.pad_options)) :
  In name (map fst pads) -> exists pc, TurtleQubit.lookup name pads = Some pc.
Proof.
  induction pads as [|[n pc] tl IH]; simpl; [tauto|].
  intros [Heq|Hin].
  - subst n. rewrite String.eqb_refl. now exists pc.
  - destruct (String.eqb name n); [now exists pc|apply IH, Hin].
Qed.

Lemma register_claw_names (pc : TurtleQubit.pad_options) (name : string)
    (a b c : geometry) (d : design) :
  let d' := TurtleQubit.register_claw p pc name [a; b; c] d in
  map row_name (qgeometry d')
  = map row_name (qgeometry d) ++ ["res_claw"; "poly5"]%string /\
  map row_subtract (qgeometry d')
  = map row_subtract (qgeometry d) ++ [false; true] /\
  map pin_name (pins d') = map pin_name (pins d) ++ [name].
Proof.
  unfold TurtleQubit.register_claw. simpl.
  rewrite <- !app_assoc, !map_app. simpl. repeat split.
Qed.

Lemma claw_objects_three (pc : TurtleQubit.pad_options) :
  (exists a b c, TurtleQubit.claw_objects p pc = [a; b; c]) /\
  (exists a b c, TurtleQubit.grounded_objects p pc = [a; b; c]).
Proof.
  split; eexists _, _, _;
    [unfold TurtleQubit.claw_objects, TurtleQubit.claw_polys
    |unfold TurtleQubit.grounded_objects, TurtleQubit.grounded_polys];
    simpl; reflexivity.
Qed.

Lemma make_pads_names (names : list string) (d : design) :
  (forall n, In n names -> In n (map fst (TurtleQubit.connection_pads p))) ->
  let d' := TurtleQubit.make_pads p names d in
  map row_name (qgeometry d')
  = map row_name (qgeometry d)
    ++ flat_map (fun _ => ["res_claw"; "poly5"]%string) names /\
  map row_subtract (qgeometry d')
  = map row_subtract (qgeometry d)
    ++ flat_map (fun _ => [false; true]) names /\
  map pin_name (pins d') = map pin_name (pins d) ++ names.
Proof.
  revert d. induction names as [|name tl IH]; intros d Hall.
  - simpl. now rewrite !app_nil_r.
  - destruct (lookup_found name _ (Hall name (or_introl eq_refl)))
      as [pc Hpc].
    assert (Htl : forall n, In n tl ->
                    In n (map fst (TurtleQubit.connection_pads p))).
    { intros n Hn. apply Hall. now right. }
    cbn [TurtleQubit.make_pads]. rewrite Hpc.
    destruct (claw_objects_three pc) as [(a & b & c & Ec) (a' & b' & c' & Eg)].
    assert (Hstep : forall d1,
      d1 = (if TurtleQubit.res_g pc
            then TurtleQubit.make_grounded_claw p name d
            else TurtleQubit.make_claw p name d) ->
      map row_name (qgeometry d1)
      = map row_name (qgeometry d) ++ ["res_claw"; "poly5"]%string /\
      map row_subtract (qgeometry d1)
      = map row_subtract (qgeometry d) ++ [false; true] /\
      map pin_name (pins d1) = map pin_name (pins d) ++ [name]).
    { intros d1 ->. unfold TurtleQubit.make_grounded_claw, TurtleQubit.make_claw.
      rewrite Hpc. destruct (TurtleQubit.res_g pc).
      - rewrite Eg. apply register_claw_names.
      - rewrite Ec. apply register_claw_names. }
    destruct (Hstep _ eq_refl) as (H1 & H2 & H3).
    destruct (IH (if TurtleQubit.res_g pc
                  then TurtleQubit.make_grounded_claw p name d
                  else TurtleQubit.make_claw p name d) Htl) as (I1 & I2 & I3).
    cbn zeta in I1, I2, I3. cbn zeta.
    rewrite I1, I2, I3, H1, H2, H3. cbn [flat_map].
    rewrite <- !app_assoc. repeat split.
Qed.

End Registries.

(** X1.  On an empty host [TurtleQubit.make] registers the rows 'Qubit',
    'Pocket' and 'rect_jj' followed, for every connection pad in order,
    by an additive row 'res_claw' and a subtractive row 'poly5' (the
    same two names for every pad), and exactly one pin per connection
    pad, named after the pad, in the order of [connection_pads]. *)
Theorem turtle_make_rows_and_pins (p : TurtleQubit.options) (mode : string) :
  let d := TurtleQubit.make p (fresh mode) in
  map row_name (qgeometry d)
  = ["Qubit"; "Pocket"; "rect_jj"]%string
    ++ flat_map (fun _ => ["res_claw"; "poly5"]%string)
         (TurtleQubit.connection_pads p) /\
  map row_subtract (qgeometry d)
  = [false; true; false]
    ++ flat_map (fun _ => [false; true]) (TurtleQubit.connection_pads p) /\
  map pin_name (pins d) = map fst (TurtleQubit.connection_pads p).
Proof.
  unfold TurtleQubit.make.
  destruct (make_pads_names p (map fst (TurtleQubit.connection_pads p))
              (TurtleQubit.make_turtle p (fresh mode)) (fun n H => H))
    as (H1 & H2 & H3).
  cbn zeta in H1, H2, H3. cbn zeta. rewrite H1, H2, H3.
  assert (Hflat : forall (A : Type) (l : list A)
                    (pads : list (string * TurtleQubit.pad_options)),
            flat_map (fun _ : string => l) (map fst pads)
            = flat_map (fun _ : string * TurtleQubit.pad_options => l) pads).
  { intros A l pads. induction pads as [|x tl IH]; simpl; [reflexivity|].
    now rewrite IH. }
  rewrite !Hflat.
  unfold TurtleQubit.make_turtle, TurtleQubit.turtle_objects.
  destruct (String.eqb (render_mode (fresh mode)) "simulate"); simpl;
    repeat split.
Qed.

(** ** Rigid motions *)

Section RigidMotions.

Lemma translate_pt_back (x y : R) (p : point) :
  translate_pt (- x) (- y) (translate_pt x y p) = p.
Proof.
  destruct p as [a b]. unfold translate_pt, px, py; simpl. f_equal; ring.
Qed.

Lemma sin_cos_one (a : R) : sin a * sin a + cos a * cos a = 1.
Proof. exact (sin2_cos2 a). Qed.

Lemma rotate_pt_back (angle : R) (o p : point) :
  rotate_pt (- angle) o (rotate_pt angle o p) = p.
Proof.
  destruct p as [x y], o as [ox oy]. unfold rotate_pt, px, py; simpl.
  replace (- angle * PI / 180) with (- (angle * PI / 180)) by lra.
  rewrite cos_neg, sin_neg.
  pose proof (sin_cos_one (angle * PI / 180)) as H.
  set (c := cos (angle * PI / 180)) in *.
  set (s := sin (angle * PI / 180)) in *.
  f_equal.
  - transitivity (ox + (x - ox) * (s * s + c * c)); [ring|rewrite H; ring].
  - transitivity (oy + (y - oy) * (s * s + c * c)); [ring|rewrite H; ring].
Qed.

Lemma rotate_pt_dist2 (angle : R) (o p q : point) :
  dist2 (rotate_pt angle o p) (rotate_pt angle o q) = dist2 p q.
Proof.
  destruct p as [x y], q as [u v], o as [ox oy].
  unfold dist2, rotate_pt, px, py; simpl.
  pose proof (sin_cos_one (angle * PI / 180)) as H.
  set (c := cos (angle * PI / 180)) in *.
  set (s := sin (angle * PI / 180)) in *.
  transitivity (((x - u) * (x - u) + (y - v) * (y - v)) * (s * s + c * c));
    [ring|rewrite H; ring].
Qed.

Lemma translate_pt_dist2 (x y : R) (p q : point) :
  dist2 (translate_pt x y p) (translate_pt x y q) = dist2 p q.
Proof.
  destruct p as [a b], q as [u v]. unfold dist2, translate_pt, px, py; simpl.
  ring.
Qed.

(** A local point of a region is a point of the region moved with it. *)
Lemma to_chip_keeps_point (s : shape) (angle x y : R) (e : point) :
  s e ->
  region (to_chip angle x y (Area s))
         (translate_pt x y (rotate_pt angle (0, 0) e)).
Proof.
  intros H. simpl. now rewrite translate_pt_back, rotate_pt_back.
Qed.

End RigidMotions.

(** ** Where the pins sit *)

Section ClawPins.
Variable p : TurtleQubit.options.
Variable pc : TurtleQubit.pad_options.
Hypothesis Hw : 0 <= TurtleQubit.cpw_width pc.
Hypothesis Hh : 0 <= TurtleQubit.res_ext pc + TurtleQubit.res_claw_width pc / 2.
Hypothesis Hg : 0 <= TurtleQubit.cpw_gap pc.

Ltac shape_at_port :=
  cbv beta; rewrite ?translate_pt_back, ?rotate_pt_back;
  unfold union; right;
  cbv beta; rewrite ?rotate_pt_back, ?translate_pt_back;
  unfold rectangle, px, py; simpl; lra.

Ltac port_length :=
  rewrite translate_pt_dist2, !rotate_pt_dist2, translate_pt_dist2;
  unfold dist2, px, py; simpl; field.

Lemma claw_port (name : string) (objects : list geometry) (d : design) :
  objects = TurtleQubit.claw_objects p pc \/
  objects = TurtleQubit.grounded_objects p pc ->
  exists claw gp e1 e2,
    qgeometry (TurtleQubit.register_claw p pc name objects d)
    = qgeometry d ++ [ mk_row poly "res_claw" (Area claw) 1 false None;
                       mk_row poly "poly5" (Area gp) 1 true None ] /\
    pins (TurtleQubit.register_claw p pc name objects d)
    = pins d ++ [mk_pin name [e1; e2] (TurtleQubit.cpw_width pc)] /\
    claw e1 /\ claw e2 /\ gp e1 /\ gp e2 /\
    dist2 e1 e2 = TurtleQubit.cpw_width pc * TurtleQubit.cpw_width pc.
Proof.
  intros [-> | ->];
    unfold TurtleQubit.register_claw, TurtleQubit.claw_objects,
      TurtleQubit.claw_polys, TurtleQubit.grounded_objects,
      TurtleQubit.grounded_polys;
    cbn [rotate_all translate_all map rotate translate region
         add_qgeometry add_pin qgeometry pins fst snd geom_coords];
    unfold LineString; cbn [map];
    (eexists _, _, _, _; split; [rewrite <- app_assoc; reflexivity|]);
    (split; [reflexivity|]);
    (split; [shape_at_port|]); (split; [shape_at_port|]);
    (split; [shape_at_port|]); (split; [shape_at_port|]);
    port_length.
Qed.

End ClawPins.

(** X2.  The pin of a claw sits on the outer edge of its coupling arm:
    for a pad with non-negative [cpw_width], [cpw_gap] and arm length
    [res_ext + res_claw_width / 2], both end points of the pin's anchor
    line belong to the registered 'res_claw' and to the registered
    'poly5' cutout, and they are exactly [cpw_width], the registered pin
    width, apart; this holds for [make_claw] and for
    [make_grounded_claw], whatever the rotation and position. *)
Theorem claw_pin_on_arm
    (p : TurtleQubit.options) (name : string)
    (pc : TurtleQubit.pad_options) (d : design) :
  TurtleQubit.lookup name (TurtleQubit.connection_pads p) = Some pc ->
  0 <= TurtleQubit.cpw_width pc ->
  0 <= TurtleQubit.res_ext pc + TurtleQubit.res_claw_width pc / 2 ->
  0 <= TurtleQubit.cpw_gap pc ->
  (exists claw gp e1 e2,
     qgeometry (TurtleQubit.make_claw p name d)
     = qgeometry d ++ [ mk_row poly "res_claw" (Area claw) 1 false None;
                        mk_row poly "poly5" (Area gp) 1 true None ] /\
     pins (TurtleQubit.make_claw p name d)
     = pins d ++ [mk_pin name [e1; e2] (TurtleQubit.cpw_width pc)] /\
     claw e1 /\ claw e2 /\ gp e1 /\ gp e2 /\
     dist2 e1 e2 = TurtleQubit.cpw_width pc * TurtleQubit.cpw_width pc) /\
  (exists claw gp e1 e2,
     qgeometry (TurtleQubit.make_grounded_claw p name d)
     = qgeometry d ++ [ mk_row poly "res_claw" (Area claw) 1 false None;
                        mk_row poly "poly5" (Area gp) 1 true None ] /\
     pins (TurtleQubit.make_grounded_claw p name d)
     = pins d ++ [mk_pin name [e1; e2] (TurtleQubit.cpw_width pc)] /\
     claw e1 /\ claw e2 /\ gp e1 /\ gp e2 /\
     dist2 e1 e2 = TurtleQubit.cpw_width pc * TurtleQubit.cpw_width pc).
Proof.
  intros Hl Hw Hh Hg.
  unfold TurtleQubit.make_claw, TurtleQubit.make_grounded_claw. rewrite Hl.
  split; apply claw_port; auto.
Qed.

Lemma claw_pin_on_arm_witness :
  let p := TurtleQubit.default_options
             [("readout"%string, TurtleQubit.default_connection_pad)] in
  exists claw gp e1 e2,
    qgeometry (TurtleQubit.make_claw p "readout" (fresh ""))
    = [] ++ [ mk_row poly "res_claw" (Area claw) 1 false None;
              mk_row poly "poly5" (Area gp) 1 true None ] /\
    pins (TurtleQubit.make_claw p "readout" (fresh ""))
    = [] ++ [mk_pin "readout" [e1; e2] (12 / 1000)] /\
    claw e1 /\ claw e2 /\ gp e1 /\ gp e2 /\
    dist2 e1 e2 = 12 / 1000 * (12 / 1000).
Proof.
  intros p.
  refine (proj1 (claw_pin_on_arm p "readout"
                   TurtleQubit.default_connection_pad (fresh "") _ _ _ _)).
  - reflexivity.
  - simpl; lra.
  - simpl; lra.
  - simpl; lra.
Defined.

Section TipPin.
Variable p : XYTip.options.
Hypothesis Hpos : tip_positive p.
Hypothesis Hrho : 0 < XYTip.tip_fillet p.
Hypothesis Hfar :
  XYTip.tip_fillet p
  < XYTip.tip_height p + XYTip.taper_height p + XYTip.lead_length p.

(** The end of the lead survives the corner rounding. *)
Lemma lead_end_in_xy_tip (y : R) :
  - (XYTip.trace_width p / 2) <= y <= XYTip.trace_width p / 2 ->
  XYTip.xy_tip p (XYTip.lead_length p, y).
Proof.
  destruct Hpos as (Htw & Htg & Hl & Hw & Hh & Hg & Ht).
  intros Hy. split.
  - apply (tip_ring_outside (XYTip.trace_width p / 2) (XYTip.tip_width p / 2)
             (XYTip.tip_height p + XYTip.taper_height p)
             (XYTip.taper_height p) (XYTip.lead_length p)); try lra.
    right; right. unfold px, py; simpl. lra.
  - intros [Hn|Hn].
    + apply negative_top_iff in Hn; [|exact Hrho].
      destruct Hn as [[Hx _] _]. unfold px in Hx; simpl in Hx. lra.
    + apply negative_bottom_iff in Hn; [|exact Hrho].
      destruct Hn as [[Hx _] _]. unfold px in Hx; simpl in Hx. lra.
Qed.

End TipPin.

(** X3.  The 'tie' pin of [XYTip.make] sits on the end of the lead: for
    positive lengths and [0 < tip_fillet < tip_height + taper_height +
    lead_length], both end points of the anchor line belong to the
    registered 'xy_tip' and to the registered 'pocket', and they are
    exactly [trace_width], the registered pin width, apart, whatever the
    orientation and position. *)
Theorem tie_pin_on_lead (p : XYTip.options) (d : design) :
  tip_positive p ->
  0 < XYTip.tip_fillet p ->
  XYTip.tip_fillet p
  < XYTip.tip_height p + XYTip.taper_height p + XYTip.lead_length p ->
  exists tip pocket e1 e2,
    qgeometry (XYTip.make p d)
    = qgeometry d ++ [ mk_row poly "xy_tip" (Area tip)
                         (XYTip.layer p) false None;
                       mk_row poly "pocket" (Area pocket)
                         (XYTip.layer p) true None ] /\
    pins (XYTip.make p d)
    = pins d ++ [mk_pin "tie" [e1; e2] (XYTip.trace_width p)] /\
    tip e1 /\ tip e2 /\ pocket e1 /\ pocket e2 /\
    dist2 e1 e2 = XYTip.trace_width p * XYTip.trace_width p.
Proof.
  intros Hpos Hrho Hfar.
  assert (Htw : 0 < XYTip.trace_width p) by (destruct Hpos; assumption).
  assert (H1 : XYTip.xy_tip p (XYTip.lead_length p, XYTip.trace_width p / 2)).
  { apply lead_end_in_xy_tip; try assumption. lra. }
  assert (H2 : XYTip.xy_tip p
                 (XYTip.lead_length p, - (XYTip.trace_width p / 2))).
  { apply lead_end_in_xy_tip; try assumption. lra. }
  pose proof (xy_tip_in_pocket p Hpos _ H1) as K1.
  pose proof (xy_tip_in_pocket p Hpos _ H2) as K2.
  unfold XYTip.make, XYTip.polys1, XYTip.main_pin_line, LineString.
  cbn [rotate_all translate_all map rotate translate region
       add_qgeometry add_pin qgeometry pins fst snd geom_coords].
  eexists _, _, _, _. split; [rewrite <- app_assoc; reflexivity|].
  split; [reflexivity|].
  repeat match goal with |- _ /\ _ => split end;
    try (cbv beta; rewrite translate_pt_back, rotate_pt_back; assumption).
  rewrite translate_pt_dist2, rotate_pt_dist2.
  unfold dist2, px, py; simpl. field.
Qed.

Lemma tie_pin_on_lead_witness :
  exists tip pocket e1 e2,
    qgeometry (XYTip.make XYTip.default_options (fresh ""))
    = [] ++ [ mk_row poly "xy_tip" (Area tip) 1 false None;
              mk_row poly "pocket" (Area pocket) 1 true None ] /\
    pins (XYTip.make XYTip.default_options (fresh ""))
    = [] ++ [mk_pin "tie" [e1; e2] (10 / 1000)] /\
    tip e1 /\ tip e2 /\ pocket e1 /\ pocket e2 /\
    dist2 e1 e2 = 10 / 1000 * (10 / 1000).
Proof.
  refine (tie_pin_on_lead XYTip.default_options (fresh "") _ _ _).
  - unfold tip_positive; simpl. repeat split; lra.
  - simpl; lra.
  - simpl; lra.
Defined.

(** ** Symmetry of the launch tip *)

Section TipSymmetry.
Variable p : XYTip.options.
Hypothesis Hpos : tip_positive p.
Hypothesis Hrho : 0 < XYTip.tip_fillet p.

Lemma tip_region_mirror (W T X h L x y : R) :
  tip_region W T X h L (x, y) -> tip_region W T X h L (x, - y).
Proof.
  unfold tip_region, px, py; simpl.
  intros [[Hx Hy]|[[Hx Hy]|[Hx Hy]]].
  - left. lra.
  - right; left. split; [lra|]. lra.
  - right; right. lra.
Qed.

Lemma pocket_mirror (x y : R) :
  XYTip.pocket p (x, y) -> XYTip.pocket p (x, - y).
Proof.
  destruct Hpos as (Htw & Htg & Hl & Hw & Hh & Hg & Ht).
  intros H.
  apply (tip_ring_outside (XYTip.trace_width p / 2 + XYTip.trace_gap p)
           (XYTip.tip_width p / 2 + XYTip.tip_gap p)
           (XYTip.tip_height p + XYTip.taper_height p + XYTip.tip_gap p)
           (XYTip.taper_height p) (XYTip.lead_length p)); try lra.
  apply tip_region_mirror.
  apply tip_ring_inside; try lra. exact H.
Qed.

Lemma polygon_mirror (x y : R) :
  XYTip.xy_tip_polygon p (x, y) -> XYTip.xy_tip_polygon p (x, - y).
Proof.
  destruct Hpos as (Htw & Htg & Hl & Hw & Hh & Hg & Ht).
  intros H.
  apply (tip_ring_outside (XYTip.trace_width p / 2) (XYTip.tip_width p / 2)
           (XYTip.tip_height p + XYTip.taper_height p)
           (XYTip.taper_height p) (XYTip.lead_length p)); try lra.
  apply tip_region_mirror.
  apply tip_ring_inside; try lra. exact H.
Qed.

Lemma negative_mirror (x y : R) :
  XYTip.round_tip_negative p (x, - y) -> XYTip.round_tip_negative p (x, y).
Proof.
  intros [Hn|Hn].
  - right. apply negative_top_iff in Hn; [|exact Hrho].
    apply negative_bottom_iff; [exact Hrho|].
    destruct Hn as [[Hx Hy] Hd]. split.
    + split; [exact Hx|]. unfold between, py in *; simpl in *. lra.
    + intros Hd'. apply Hd. unfold dist2, px, py in *; simpl in *. lra.
  - left. apply negative_bottom_iff in Hn; [|exact Hrho].
    apply negative_top_iff; [exact Hrho|].
    destruct Hn as [[Hx Hy] Hd]. split.
    + split; [exact Hx|]. unfold between, py in *; simpl in *. lra.
    + intros Hd'. apply Hd. unfold dist2, px, py in *; simpl in *. lra.
Qed.

Lemma xy_tip_mirror (x y : R) :
  XYTip.xy_tip p (x, y) -> XYTip.xy_tip p (x, - y).
Proof.
  intros [Hp Hn]. split.
  - apply polygon_mirror, Hp.
  - intros H. apply Hn. apply negative_mirror. exact H.
Qed.

End TipSymmetry.

(** X4.  For positive lengths and a positive [tip_fillet], the rounded
    [xy_tip] and the [pocket] that [XYTip.make] builds are mirror
    symmetric about the axis of the lead: a point belongs to either
    shape exactly when its mirror image in the x axis does. *)
Theorem launch_tip_is_symmetric (p : XYTip.options) (x y : R) :
  tip_positive p -> 0 < XYTip.tip_fillet p ->
  (XYTip.xy_tip p (x, y) <-> XYTip.xy_tip p (x, - y)) /\
  (XYTip.pocket p (x, y) <-> XYTip.pocket p (x, - y)).
Proof.
  intros Hpos Hrho. split; split; intros H.
  - apply xy_tip_mirror; assumption.
  - rewrite <- (Ropp_involutive y). apply xy_tip_mirror; assumption.
  - apply pocket_mirror; assumption.
  - rewrite <- (Ropp_involutive y). apply pocket_mirror; assumption.
Qed.

Lemma launch_tip_is_symmetric_witness :
  XYTip.pocket XYTip.default_options (0, 1 / 1000) <->
  XYTip.pocket XYTip.default_options (0, - (1 / 1000)).
Proof.
  refine (proj2 (launch_tip_is_symmetric XYTip.default_options 0 (1 / 1000)
                   _ _)).
  - unfold tip_positive; simpl. repeat split; lra.
  - simpl; lra.
Defined.

(** ** What the corner rounding of the launch tip changes *)

(** X5.  The rounding of [XYTip.make] is local to the two corner
    squares of side [tip_fillet]: for positive lengths and a positive
    [tip_fillet], a point outside both squares belongs to the rounded
    [xy_tip] exactly when it belongs to the taper-and-pad polygon, and
    the two outer corner vertices of the pad, which belong to the
    polygon, are removed. *)
Theorem corner_rounding_is_local (p : XYTip.options) (q : point) :
  tip_positive p -> 0 < XYTip.tip_fillet p ->
  (~ corner_square_top p q -> ~ corner_square_bottom p q ->
   (XYTip.xy_tip p q <-> XYTip.xy_tip_polygon p q)) /\
  XYTip.xy_tip_polygon p
    (- (XYTip.tip_height p + XYTip.taper_height p), XYTip.tip_width p / 2) /\
  ~ XYTip.xy_tip p
    (- (XYTip.tip_height p + XYTip.taper_height p), XYTip.tip_width p / 2) /\
  XYTip.xy_tip_polygon p
    (- (XYTip.tip_height p + XYTip.taper_height p),
     - (XYTip.tip_width p / 2)) /\
  ~ XYTip.xy_tip p
    (- (XYTip.tip_height p + XYTip.taper_height p),
     - (XYTip.tip_width p / 2)).
Proof.
  intros Hpos Hrho.
  destruct Hpos as (Htw & Htg & Hl & Hw & Hh & Hg & Ht).
  assert (Hpoly : forall y, - (XYTip.tip_width p / 2) <= y
                            <= XYTip.tip_width p / 2 ->
            XYTip.xy_tip_polygon p
              (- (XYTip.tip_height p + XYTip.taper_height p), y)).
  { intros y Hy.
    apply (tip_ring_outside (XYTip.trace_width p / 2) (XYTip.tip_width p / 2)
             (XYTip.tip_height p + XYTip.taper_height p)
             (XYTip.taper_height p) (XYTip.lead_length p)); try lra.
    left. unfold px, py; simpl. lra. }
  pose proof (sq_nonneg (XYTip.tip_fillet p)) as Hsq.
  assert (Hsq2 : 0 < XYTip.tip_fillet p * XYTip.tip_fillet p)
    by (apply Rmult_lt_0_compat; assumption).
  split; [|split; [|split; [|split]]].
  - intros Ht1 Ht2. split.
    + intros [H _]. exact H.
    + intros H. split; [exact H|]. intros [Hn|Hn].
      * apply negative_top_iff in Hn; [|exact Hrho]. apply Ht1, Hn.
      * apply negative_bottom_iff in Hn; [|exact Hrho]. apply Ht2, Hn.
  - apply Hpoly. lra.
  - intros [_ Hn]. apply Hn. left. apply negative_top_iff; [exact Hrho|].
    split.
    + unfold corner_square_top, box_region, between, px, py; simpl.
      split; [lra|]. right. lra.
    + unfold dist2, px, py; simpl. intros Hd.
      ring_simplify in Hd. lra.
  - apply Hpoly. lra.
  - intros [_ Hn]. apply Hn. right. apply negative_bottom_iff; [exact Hrho|].
    split.
    + unfold corner_square_bottom, box_region, between, px, py; simpl.
      split; [lra|]. left. lra.
    + unfold dist2, px, py; simpl. intros Hd.
      ring_simplify in Hd. lra.
Qed.

Lemma corner_rounding_is_local_witness :
  ~ XYTip.xy_tip XYTip.default_options (- (100 / 1000 + 50 / 1000),
                                        5 / 1000 / 2).
Proof.
  refine (proj1 (proj2 (proj2
    (corner_rounding_is_local XYTip.default_options (0, 0) _ _)))).
  - unfold tip_positive; simpl. repeat split; lra.
  - simpl; lra.
Defined.

(** ** Rounding with radius zero *)

Section ZeroRounding.
Variable s : shape.

Lemma buffer_zero (p : point) : buffer s 0 p <-> s p.
Proof.
  split.
  - intros [[_ [q [Hq Hd]]]|[Hneg _]]; [|lra].
    destruct p as [x y], q as [u v].
    unfold dist2, px, py in Hd; simpl in Hd.
    pose proof (sq_nonneg (x - u)). pose proof (sq_nonneg (y - v)).
    assert (Hx : (x - u) * (x - u) <= 0 * 0) by lra.
    assert (Hy : (y - v) * (y - v) <= 0 * 0) by lra.
    apply sq_bound in Hx; [|lra]. apply sq_bound in Hy; [|lra].
    assert (x = u) by lra. assert (y = v) by lra. subst. exact Hq.
  - intros H. apply buffer_grows; [lra|exact H].
Qed.

End ZeroRounding.

(** X6.  A rounding radius of zero rounds nothing: the three statements
    of "Round the claw" in [make_claw], run with [res_claw_rounding = 0],
    give back exactly the shape they are given. *)
Theorem zero_rounding_keeps_claw (s : shape) :
  same (TurtleQubit.round_claw s 0) s.
Proof.
  intros p. split; [apply round_claw_subset|].
  intros Hp. unfold TurtleQubit.round_claw. split; [exact Hp|].
  apply (proj2 (buffer_zero _ p)). split.
  - replace (2 * 0) with 0 by ring. apply (proj2 (buffer_zero _ p)). exact Hp.
  - intros Hc. apply (proj1 (buffer_zero _ p)) in Hc. destruct Hc as [Hb Hn].
    apply Hn. apply (proj1 (buffer_zero _ p)). exact Hb.
Qed.

(** ** The junction line of the transmon *)

(** X7.  For a positive [rad_i], a gap of at least 1um and a
    non-negative [jj_w], the junction line [rect_jj] of [make_turtle] is
    a segment of the y axis of length [gap - 1um] below the island.
    Under any render mode other than 'simulate' both of its ends lie in
    the pocket and outside the island; under 'simulate' its upper end
    lies on the launch rectangle joined to the island and its lower end
    on the rectangle removed from the pocket, so it runs from the island
    to the ground. *)
Theorem junction_line_spans_gap (p : TurtleQubit.options) (d : design) :
  0 < TurtleQubit.rad_i p -> 1 / 1000 <= TurtleQubit.gap p ->
  0 <= TurtleQubit.jj_w p ->
  exists island pocket e1 e2,
    TurtleQubit.turtle_objects p d
    = [Area island; Area pocket; Line [e1; e2]] /\
    px e1 = 0 /\ px e2 = 0 /\
    py e2 - py e1 = TurtleQubit.gap p - 1 / 1000 /\
    (render_mode d <> "simulate"%string ->
     ~ island e1 /\ ~ island e2 /\ pocket e1 /\ pocket e2) /\
    (render_mode d = "simulate"%string -> island e2 /\ ~ pocket e1).
Proof.
  intros Hr Hg Hw. unfold TurtleQubit.turtle_objects, LineString.
  assert (Hout : forall y, y < - TurtleQubit.rad_i p ->
            ~ buffer (Point 0 0) (TurtleQubit.rad_i p) (0, y)).
  { intros y Hy Hb. apply buffer_Point in Hb; [|lra].
    unfold dist2, px, py in Hb; simpl in Hb.
    assert (H0 : y * y <= TurtleQubit.rad_i p * TurtleQubit.rad_i p) by lra.
    apply sq_bound in H0; lra. }
  assert (Hin : forall y,
            - (TurtleQubit.rad_i p + TurtleQubit.gap p) <= y <= 0 ->
            buffer (Point 0 0) (TurtleQubit.rad_i p + TurtleQubit.gap p)
              (0, y)).
  { intros y Hy. apply buffer_Point; [lra|].
    unfold dist2, px, py; simpl.
    pose proof (sq_le y (TurtleQubit.rad_i p + TurtleQubit.gap p)) as H.
    assert (H1 : y * y <= (TurtleQubit.rad_i p + TurtleQubit.gap p)
                          * (TurtleQubit.rad_i p + TurtleQubit.gap p))
      by (apply H; lra).
    lra. }
  destruct (String.eqb (render_mode d) "simulate") eqn:E.
  - eexists _, _, _, _. split; [reflexivity|].
    split; [reflexivity|]. split; [reflexivity|].
    split; [unfold py; simpl; lra|]. split.
    + intros Hn. apply String.eqb_eq in E. contradiction.
    + intros _. split.
      * right. unfold rectangle, translate_pt, px, py; simpl. lra.
      * intros [_ Hn]. apply Hn.
        unfold rectangle, translate_pt, px, py; simpl. lra.
  - eexists _, _, _, _. split; [reflexivity|].
    split; [reflexivity|]. split; [reflexivity|].
    split; [unfold py; simpl; lra|]. split.
    + intros _. split; [|split; [|split]].
      * apply Hout. lra.
      * apply Hout. lra.
      * apply Hin. lra.
      * apply Hin. lra.
    + intros Hs. apply String.eqb_eq in Hs. congruence.
Qed.

Lemma junction_line_spans_gap_witness :
  exists island pocket e1 e2,
    TurtleQubit.turtle_objects (TurtleQubit.default_options [])
      (fresh "simulate")
    = [Area island; Area pocket; Line [e1; e2]] /\
    py e2 - py e1 = 25 / 1000 - 1 / 1000 /\
    island e2 /\ ~ pocket e1.
Proof.
  destruct (junction_line_spans_gap (TurtleQubit.default_options [])
              (fresh "simulate")) as (i & k & e1 & e2 & E & _ & _ & Hl & _ & Hs).
  - simpl; lra.
  - simpl; lra.
  - simpl; lra.
  - exists i, k, e1, e2. split; [exact E|]. split; [exact Hl|].
    exact (Hs eq_refl).
Defined.

(** ** The grounded arm against the plain arm *)

Section ArmShift.

Lemma rotate_pt_add (angle : R) (q w : point) :
  rotate_pt angle (0, 0) (px q + px w, py q + py w)
  = (px (rotate_pt angle (0, 0) q) + px (rotate_pt angle (0, 0) w),
     py (rotate_pt angle (0, 0) q) + py (rotate_pt angle (0, 0) w)).
Proof.
  destruct q as [x y], w as [u v]. unfold rotate_pt, px, py; simpl.
  f_equal; ring.
Qed.

Lemma rotate_pt_shift_back (angle : R) (q w : point) :
  rotate_pt (- angle) (0, 0)
    (px q + px (rotate_pt angle (0, 0) w),
     py q + py (rotate_pt angle (0, 0) w))
  = (px (rotate_pt (- angle) (0, 0) q) + px w,
     py (rotate_pt (- angle) (0, 0) q) + py w).
Proof. rewrite rotate_pt_add, rotate_pt_back. reflexivity. Qed.

End ArmShift.

(** X8.  The grounded claw moves the coupling arm and the pin outward
    along the axis of the claw by [res_s + res_g_s] and changes nothing
    else about them: the arm of [make_grounded_claw] is the arm of
    [make_claw] shifted by the vector [(0, - (res_s + res_g_s))] rotated
    by [res_angle], and so are the two end points of its port line. *)
Theorem grounded_arm_is_shifted
    (p : TurtleQubit.options) (pc : TurtleQubit.pad_options) :
  exists arm arm' e1 e2 e1' e2',
    TurtleQubit.claw_polys p pc = [Area arm; Line [e1; e2]] /\
    TurtleQubit.grounded_polys p pc = [Area arm'; Line [e1'; e2']] /\
    let v := rotate_pt (TurtleQubit.res_angle pc) (0, 0)
               (0, - (TurtleQubit.res_s pc + TurtleQubit.res_g_s pc)) in
    e1' = (px e1 + px v, py e1 + py v) /\
    e2' = (px e2 + px v, py e2 + py v) /\
    forall q, arm' (px q + px v, py q + py v) <-> arm q.
Proof.
  unfold TurtleQubit.claw_polys, TurtleQubit.grounded_polys, LineString.
  cbn [rotate_all translate_all map rotate translate].
  eexists _, _, _, _, _, _. split; [reflexivity|]. split; [reflexivity|].
  cbv zeta. split; [|split].
  - unfold rotate_pt, translate_pt, px, py; simpl. f_equal; ring.
  - unfold rotate_pt, translate_pt, px, py; simpl. f_equal; ring.
  - intros q. cbv beta. rewrite rotate_pt_shift_back.
    destruct (rotate_pt (- TurtleQubit.res_angle pc) (0, 0) q) as [x y].
    unfold rectangle, translate_pt, px, py; simpl. split; intros H; lra.
Qed.

(** ** The lead of the launch tip *)

(** X9.  Along the lead the launch tip is a coplanar line of width
    [trace_width] and gap [trace_gap]: for positive lengths,
    [0 < tip_fillet <= tip_height + taper_height] and [0 < x <=
    lead_length], a point [(x, y)] belongs to [xy_tip] exactly when
    [|y| <= trace_width / 2] and to the [pocket] exactly when
    [|y| <= trace_width / 2 + trace_gap]; and the pocket ends flush with
    the lead, no point of it has [x > lead_length]. *)
Theorem lead_cross_section (p : XYTip.options) (x y : R) :
  tip_positive p ->
  0 < XYTip.tip_fillet p ->
  XYTip.tip_fillet p <= XYTip.tip_height p + XYTip.taper_height p ->
  0 < x -> x <= XYTip.lead_length p ->
  (XYTip.xy_tip p (x, y)
   <-> - (XYTip.trace_width p / 2) <= y <= XYTip.trace_width p / 2) /\
  (XYTip.pocket p (x, y)
   <-> - (XYTip.trace_width p / 2 + XYTip.trace_gap p) <= y
       <= XYTip.trace_width p / 2 + XYTip.trace_gap p) /\
  (forall q, XYTip.pocket p q -> px q <= XYTip.lead_length p).
Proof.
  intros Hpos Hrho Hsmall Hx0 HxL.
  destruct Hpos as (Htw & Htg & Hl & Hw & Hh & Hg & Ht).
  split; [|split].
  - split.
    + intros [Hp _].
      apply (tip_ring_inside (XYTip.trace_width p / 2) (XYTip.tip_width p / 2)
               (XYTip.tip_height p + XYTip.taper_height p)
               (XYTip.taper_height p) (XYTip.lead_length p)) in Hp; try lra.
      unfold tip_region, px, py in Hp; simpl in Hp.
      destruct Hp as [[Hx _]|[[Hx _]|[_ Hy]]]; lra.
    + intros Hy. split.
      * apply (tip_ring_outside (XYTip.trace_width p / 2)
                 (XYTip.tip_width p / 2)
                 (XYTip.tip_height p + XYTip.taper_height p)
                 (XYTip.taper_height p) (XYTip.lead_length p)); try lra.
        right; right. unfold px, py; simpl. lra.
      * intros [Hn|Hn].
        -- apply negative_top_iff in Hn; [|exact Hrho].
           destruct Hn as [[Hx _] _]. unfold px in Hx; simpl in Hx. lra.
        -- apply negative_bottom_iff in Hn; [|exact Hrho].
           destruct Hn as [[Hx _] _]. unfold px in Hx; simpl in Hx. lra.
  - split.
    + intros Hp.
      apply (tip_ring_inside (XYTip.trace_width p / 2 + XYTip.trace_gap p)
               (XYTip.tip_width p / 2 + XYTip.tip_gap p)
               (XYTip.tip_height p + XYTip.taper_height p + XYTip.tip_gap p)
               (XYTip.taper_height p) (XYTip.lead_length p)) in Hp; try lra.
      unfold tip_region, px, py in Hp; simpl in Hp.
      destruct Hp as [[Hx _]|[[Hx _]|[_ Hy]]]; lra.
    + intros Hy.
      apply (tip_ring_outside (XYTip.trace_width p / 2 + XYTip.trace_gap p)
               (XYTip.tip_width p / 2 + XYTip.tip_gap p)
               (XYTip.tip_height p + XYTip.taper_height p + XYTip.tip_gap p)
               (XYTip.taper_height p) (XYTip.lead_length p)); try lra.
      right; right. unfold px, py; simpl. lra.
  - intros [qx qy] Hp.
    apply (tip_ring_inside (XYTip.trace_width p / 2 + XYTip.trace_gap p)
             (XYTip.tip_width p / 2 + XYTip.tip_gap p)
             (XYTip.tip_height p + XYTip.taper_height p + XYTip.tip_gap p)
             (XYTip.taper_height p) (XYTip.lead_length p)) in Hp; try lra.
    unfold tip_region, px, py in Hp; simpl in Hp. unfold px; simpl.
    destruct Hp as [[Hx _]|[[Hx _]|[Hx _]]]; lra.
Qed.

Lemma lead_cross_section_witness :
  XYTip.pocket XYTip.default_options (5 / 1000, 11 / 1000)
  <-> - (10 / 1000 / 2 + 6 / 1000) <= 11 / 1000 <= 10 / 1000 / 2 + 6 / 1000.
Proof.
  refine (proj1 (proj2 (lead_cross_section XYTip.default_options
                          (5 / 1000) (11 / 1000) _ _ _ _ _))).
  - unfold tip_positive; simpl. repeat split; lra.
  - simpl; lra.
  - simpl; lra.
  - lra.
  - simpl; lra.
Defined.

(** ** The boundary of a disk about the origin *)

Section DiskBoundary.

(** A weighted triangle inequality on squared lengths. *)
Lemma near_norm (x y u v l : R) :
  0 < l ->
  l * ((x + u) * (x + u) + (y + v) * (y + v))
  <= l * (1 + l) * (x * x + y * y) + (1 + l) * (u * u + v * v).
Proof.
  intros Hl.
  pose proof (sq_nonneg (l * x - u)) as H1.
  pose proof (sq_nonneg (l * y - v)) as H2.
  ring_simplify in H1. ring_simplify in H2. ring_simplify. lra.
Qed.

Lemma small_radius (e : R) : 0 < e -> exists eps, 0 < eps /\ eps * eps <= e.
Proof.
  intros He. exists (Rmin 1 e).
  assert (H0 : 0 < Rmin 1 e) by (apply Rmin_pos; lra).
  split; [exact H0|].
  pose proof (Rmin_l 1 e) as H1. pose proof (Rmin_r 1 e) as H2.
  assert (Rmin 1 e * Rmin 1 e <= 1 * e).
  { apply Rmult_le_compat; lra. }
  lra.
Qed.

Lemma pick_weight (g r : R) :
  0 < g -> 0 < r -> exists l, 0 < l /\ l <= 1 /\ l * (r * r) <= g / 2.
Proof.
  intros Hg Hr.
  assert (Hrr : 0 < r * r) by (apply Rmult_lt_0_compat; assumption).
  assert (Hq : 0 < g / (2 * (r * r))).
  { apply Rdiv_lt_0_compat; lra. }
  exists (Rmin 1 (g / (2 * (r * r)))).
  pose proof (Rmin_l 1 (g / (2 * (r * r)))) as H1.
  pose proof (Rmin_r 1 (g / (2 * (r * r)))) as H2.
  split; [apply Rmin_pos; lra|]. split; [exact H1|].
  apply Rle_trans with (g / (2 * (r * r)) * (r * r)).
  - apply Rmult_le_compat_r; lra.
  - right. field. lra.
Qed.

(** The boundary of the disk of radius [r] about the origin lies on the
    circle of radius [r]. *)
Lemma disk_boundary_on_circle (r : R) (q : point) :
  0 < r -> boundary (buffer (Point 0 0) r) q -> dist2 q (0, 0) = r * r.
Proof.
  intros Hr Hb. destruct q as [x y].
  assert (Hs : dist2 (x, y) (0, 0) = x * x + y * y).
  { unfold dist2, px, py; simpl. ring. }
  rewrite Hs.
  pose proof (sq_nonneg x) as Hx2. pose proof (sq_nonneg y) as Hy2.
  destruct (Rtotal_order (x * x + y * y) (r * r)) as [Hlt|[Heq|Hgt]];
    [exfalso|exact Heq|exfalso].
  - destruct (pick_weight (r * r - (x * x + y * y)) r) as (l & Hl0 & Hl1 & Hlr);
      [lra|exact Hr|].
    set (g := r * r - (x * x + y * y)) in *.
    assert (Hg : 0 < g) by (unfold g; lra).
    assert (He : 0 < l * g / 4).
    { assert (0 < l * g) by (apply Rmult_lt_0_compat; lra). lra. }
    destruct (small_radius _ He) as (eps & Heps & Hsmall).
    destruct (Hb eps Heps) as [_ [[a b] [Hout Hd]]].
    apply Hout. apply buffer_Point; [lra|].
    unfold dist2, px, py in Hd |- *; simpl in Hd |- *.
    pose proof (near_norm x y (a - x) (b - y) l Hl0) as Hn.
    replace (x + (a - x)) with a in Hn by ring.
    replace (y + (b - y)) with b in Hn by ring.
    set (D := (a - x) * (a - x) + (b - y) * (b - y)) in *.
    assert (HD : D < l * g / 4).
    { unfold D. replace ((a - x) * (a - x)) with ((x - a) * (x - a)) by ring.
      replace ((b - y) * (b - y)) with ((y - b) * (y - b)) by ring. lra. }
    assert (HD0 : 0 <= D).
    { unfold D. pose proof (sq_nonneg (a - x)). pose proof (sq_nonneg (b - y)).
      lra. }
    set (s := x * x + y * y) in *.
    assert (F0 : l * s <= g / 2).
    { apply Rle_trans with (l * (r * r)); [|exact Hlr].
      apply Rmult_le_compat_l; lra. }
    assert (F1 : l * (l * s) <= l * (g / 2))
      by (apply Rmult_le_compat_l; lra).
    assert (F2 : l * D <= l * (l * g / 4))
      by (apply Rmult_le_compat_l; lra).
    assert (F3 : l * (l * g) <= 1 * (l * g)).
    { apply Rmult_le_compat_r; [|lra].
      apply Rmult_le_pos; unfold g; lra. }
    assert (Hfin : l * (a * a + b * b) <= l * (r * r)).
    { replace (r * r) with (s + g) by (unfold g, s; ring).
      ring_simplify in Hn. ring_simplify in F1. ring_simplify in F2.
      ring_simplify in F3. ring_simplify. lra. }
    apply Rmult_le_reg_l in Hfin; [|exact Hl0].
    lra.
  - destruct (pick_weight (x * x + y * y - r * r) r) as (l & Hl0 & Hl1 & Hlr);
      [lra|exact Hr|].
    set (g := x * x + y * y - r * r) in *.
    assert (Hg : 0 < g) by (unfold g; lra).
    assert (He : 0 < l * g / 4).
    { assert (0 < l * g) by (apply Rmult_lt_0_compat; lra). lra. }
    destruct (small_radius _ He) as (eps & Heps & Hsmall).
    destruct (Hb eps Heps) as [[[a b] [Hin Hd]] _].
    apply buffer_Point in Hin; [|lra].
    unfold dist2, px, py in Hd, Hin; simpl in Hd, Hin.
    assert (HN : a * a + b * b <= r * r) by lra.
    pose proof (near_norm a b (x - a) (y - b) l Hl0) as Hn.
    replace (a + (x - a)) with x in Hn by ring.
    replace (b + (y - b)) with y in Hn by ring.
    set (D := (x - a) * (x - a) + (y - b) * (y - b)) in *.
    assert (HD : D < l * g / 4) by lra.
    assert (HD0 : 0 <= D).
    { unfold D. pose proof (sq_nonneg (x - a)). pose proof (sq_nonneg (y - b)).
      lra. }
    set (N := a * a + b * b) in *.
    assert (G0 : l * N <= l * (r * r)) by (apply Rmult_le_compat_l; lra).
    assert (G1 : l * (l * N) <= l * (l * (r * r))).
    { apply Rmult_le_compat_l; [lra|exact G0]. }
    assert (G2 : l * (l * (r * r)) <= l * (g / 2))
      by (apply Rmult_le_compat_l; lra).
    assert (F2 : l * D <= l * (l * g / 4))
      by (apply Rmult_le_compat_l; lra).
    assert (F3 : l * (l * g) <= 1 * (l * g)).
    { apply Rmult_le_compat_r; [|lra].
      apply Rmult_le_pos; unfold g; lra. }
    assert (Hs2 : l * (x * x + y * y) = l * (r * r) + l * g)
      by (unfold g; ring).
    ring_simplify in Hn. ring_simplify in G1. ring_simplify in G2.
    ring_simplify in F2. ring_simplify in F3. ring_simplify in Hs2.
    ring_simplify in G0. lra.
Qed.

End DiskBoundary.

(** ** A rounding radius above half the stroke width *)

Section Vanish.
Variable arc : shape.
Variables Rc d rho : R.
Hypothesis Harc : forall q, arc q -> dist2 q (0, 0) = Rc * Rc.
Hypothesis HRc : 0 < Rc.
Hypothesis Hd : 0 <= d.
Hypothesis Hdr : d < rho.
Hypothesis HrR : rho < Rc.

Let S : shape := buffer_flat arc d.

Lemma arc_norm (q : point) : arc q -> px q * px q + py q * py q = Rc * Rc.
Proof.
  intros H. apply Harc in H. unfold dist2 in H.
  replace (px (0, 0)) with 0 in H by reflexivity.
  replace (py (0, 0)) with 0 in H by reflexivity.
  rewrite <- H. ring.
Qed.

Lemma dist2_scaled (q : point) (k1 k2 : R) :
  arc q ->
  dist2 (k1 * px q, k1 * py q) (k2 * px q, k2 * py q)
  = ((k1 - k2) * Rc) * ((k1 - k2) * Rc).
Proof.
  intros H. pose proof (arc_norm q H) as Hn.
  unfold dist2. cbn [px py fst snd].
  transitivity ((k1 - k2) * (k1 - k2) * (px q * px q + py q * py q));
    [unfold px, py; ring|rewrite Hn; ring].
Qed.

(** A point of the stroke is at most [d] off the circle, radially. *)
Lemma stroke_inv (p : point) :
  S p ->
  exists q k, arc q /\ 0 < k /\ p = (k * px q, k * py q) /\
              - d <= (k - 1) * Rc <= d.
Proof.
  intros [_ (q & k & Hq & Hk & Hp & Hb)].
  exists q, k. split; [exact Hq|]. split; [exact Hk|]. split; [exact Hp|].
  apply sq_bound; [exact Hd|].
  rewrite (Harc q Hq) in Hb.
  replace ((k - 1) * Rc * ((k - 1) * Rc))
    with ((k - 1) * (k - 1) * (Rc * Rc)) by ring.
  exact Hb.
Qed.

Lemma stroke_intro (q : point) (k : R) :
  arc q -> 0 < k -> - d <= (k - 1) * Rc <= d -> S (k * px q, k * py q).
Proof.
  intros Hq Hk Hb. split; [exact Hd|]. exists q, k.
  split; [exact Hq|]. split; [exact Hk|]. split; [reflexivity|].
  rewrite (Harc q Hq).
  replace ((k - 1) * (k - 1) * (Rc * Rc))
    with ((k - 1) * Rc * ((k - 1) * Rc)) by ring.
  apply sq_le. exact Hb.
Qed.

(** A point on a ray through the arc and more than [d] off the circle
    is outside the stroke. *)
Lemma stroke_excludes (q : point) (k : R) :
  arc q -> 0 < k -> (d < (k - 1) * Rc \/ (k - 1) * Rc < - d) ->
  ~ S (k * px q, k * py q).
Proof.
  intros Hq Hk Hoff HS.
  destruct (stroke_inv _ HS) as (q1 & k1 & Hq1 & Hk1 & Heq & Hb).
  pose proof (arc_norm q Hq) as Hn. pose proof (arc_norm q1 Hq1) as Hn1.
  injection Heq as Ex Ey.
  assert (Hsq : (k * k) * (Rc * Rc) = (k1 * k1) * (Rc * Rc)).
  { rewrite <- Hn at 1. rewrite <- Hn1.
    transitivity (k * px q * (k * px q) + k * py q * (k * py q)); [ring|].
    rewrite Ex, Ey. ring. }
  assert (Hrr : 0 < Rc * Rc) by (apply Rmult_lt_0_compat; assumption).
  apply Rmult_eq_reg_r in Hsq; [|lra].
  assert (Hkk : (k - k1) * (k + k1) = 0) by (ring_simplify; lra).
  apply Rmult_integral in Hkk. destruct Hkk as [Hkk|Hkk]; [|lra].
  assert (k = k1) by lra. subst k1. lra.
Qed.

Lemma rounded_stroke_empty : empty (TurtleQubit.round_claw S rho).
Proof.
  intros p Hr.
  apply round_claw_inv in Hr; [|lra].
  destruct Hr as [Hp [c [Hcore Hd2]]].
  assert (Hc : S c).
  { apply (core_in_shape S rho) with (t := p); try lra; try assumption.
    rewrite dist2_sym. exact Hd2. }
  destruct (stroke_inv _ Hc) as (q & k & Hq & Hk & -> & Hb).
  set (dl := (rho - d) / 2).
  assert (Hdl : 0 < dl) by (unfold dl; lra).
  assert (Hdl2 : d + dl < rho) by (unfold dl; lra).
  destruct (Rle_lt_dec 0 ((k - 1) * Rc)) as [Hm|Hm].
  - assert (E1 : (1 + (d + dl) / Rc - 1) * Rc = d + dl) by (field; lra).
    assert (E2 : (1 + d / Rc - 1) * Rc = d) by (field; lra).
    assert (P1 : 0 < 1 + (d + dl) / Rc).
    { assert (0 < (d + dl) / Rc) by (apply Rdiv_lt_0_compat; lra). lra. }
    assert (P2 : 0 < 1 + d / Rc).
    { assert (0 <= d / Rc) by (apply Rle_mult_inv_pos; lra). lra. }
    apply (core_excludes S rho) with (c := (k * px q, k * py q))
        (a := ((1 + (d + dl) / Rc) * px q, (1 + (d + dl) / Rc) * py q))
        (t := ((1 + d / Rc) * px q, (1 + d / Rc) * py q));
      try lra; try assumption.
    + apply stroke_excludes; try assumption. left. lra.
    + apply stroke_intro; try assumption. lra.
    + rewrite dist2_scaled by assumption. apply sq_le.
      replace ((1 + (d + dl) / Rc - (1 + d / Rc)) * Rc) with dl
        by (field; lra).
      lra.
    + rewrite dist2_scaled by assumption. apply sq_le.
      replace ((k - (1 + (d + dl) / Rc)) * Rc)
        with ((k - 1) * Rc - (d + dl)) by (field; lra).
      lra.
  - assert (E1 : (1 - (d + dl) / Rc - 1) * Rc = - (d + dl)) by (field; lra).
    assert (E2 : (1 - d / Rc - 1) * Rc = - d) by (field; lra).
    assert (P1 : 0 < 1 - (d + dl) / Rc).
    { assert ((d + dl) / Rc < 1).
      { apply (Rmult_lt_reg_r Rc); [exact HRc|].
        replace ((d + dl) / Rc * Rc) with (d + dl) by (field; lra). lra. }
      lra. }
    assert (P2 : 0 < 1 - d / Rc).
    { assert (d / Rc < 1).
      { apply (Rmult_lt_reg_r Rc); [exact HRc|].
        replace (d / Rc * Rc) with d by (field; lra). lra. }
      lra. }
    apply (core_excludes S rho) with (c := (k * px q, k * py q))
        (a := ((1 - (d + dl) / Rc) * px q, (1 - (d + dl) / Rc) * py q))
        (t := ((1 - d / Rc) * px q, (1 - d / Rc) * py q));
      try lra; try assumption.
    + apply stroke_excludes; try assumption. right. lra.
    + apply stroke_intro; try assumption. lra.
    + rewrite dist2_scaled by assumption. apply sq_le.
      replace ((1 - (d + dl) / Rc - (1 - d / Rc)) * Rc) with (- dl)
        by (field; lra).
      lra.
    + rewrite dist2_scaled by assumption. apply sq_le.
      replace ((k - (1 - (d + dl) / Rc)) * Rc)
        with ((k - 1) * Rc + (d + dl)) by (field; lra).
      lra.
Qed.

End Vanish.

(** X10.  The rounding radius has to stay below half the stroke width:
    when [res_claw_width / 2 < res_claw_rounding] (and the rounding
    radius is below the radius of the circle the arc is cut from) the
    rounding statements of [make_claw] leave nothing of the stroked
    ring, for every arc length and angle, and the 'res_claw' that
    [make_claw] builds is the coupling arm alone. *)
Theorem oversized_rounding_removes_claw
    (p : TurtleQubit.options) (pc : TurtleQubit.pad_options) :
  0 <= TurtleQubit.res_claw_width pc ->
  0.5 * TurtleQubit.res_claw_width pc < TurtleQubit.res_claw_rounding pc ->
  TurtleQubit.res_claw_rounding pc < TurtleQubit.claw_circle_radius p pc ->
  empty (TurtleQubit.round_claw (TurtleQubit.claw_stroke p pc)
           (TurtleQubit.res_claw_rounding pc)) /\
  exists arm claw gp port,
    TurtleQubit.claw_polys p pc = [Area arm; Line port] /\
    TurtleQubit.claw_objects p pc = [Area claw; Area gp; Line port] /\
    same claw arm.
Proof.
  intros Hw Hbig Hsmall.
  assert (Hempty : empty (TurtleQubit.round_claw (TurtleQubit.claw_stroke p pc)
                            (TurtleQubit.res_claw_rounding pc))).
  { unfold TurtleQubit.claw_stroke.
    apply (rounded_stroke_empty _ (TurtleQubit.claw_circle_radius p pc));
      try lra.
    intros q [Hb _]. apply disk_boundary_on_circle; [lra|exact Hb]. }
  split; [exact Hempty|].
  unfold TurtleQubit.claw_objects, TurtleQubit.claw_polys.
  cbn [rotate_all translate_all map rotate translate region].
  eexists _, _, _, _. split; [reflexivity|]. split; [reflexivity|].
  intros q. unfold union. split.
  - intros [H|H]; [destruct (Hempty _ H)|exact H].
  - intros H. right. exact H.
Qed.

Lemma oversized_rounding_removes_claw_witness :
  empty (TurtleQubit.round_claw
           (TurtleQubit.claw_stroke (TurtleQubit.default_options [])
              (with_rounding TurtleQubit.default_connection_pad (6 / 1000)))
           (6 / 1000)).
Proof.
  refine (proj1 (oversized_rounding_removes_claw
                   (TurtleQubit.default_options [])
                   (with_rounding TurtleQubit.default_connection_pad
                      (6 / 1000)) _ _ _)).
  - simpl; lra.
  - simpl; lra.
  - unfold TurtleQubit.claw_circle_radius; simpl; lra.
Defined.

(** ** The claw ring and the island *)

Section RingRadius.
Variable arc : shape.
Variables Rc d : R.
Hypothesis Harc : forall q, arc q -> dist2 q (0, 0) = Rc * Rc.
Hypothesis Hd : 0 <= d.
Hypothesis Hin : 0 <= Rc - d.

Lemma stroke_in_annulus (p : point) :
  buffer_flat arc d p ->
  (Rc - d) * (Rc - d) <= dist2 p (0, 0) <= (Rc + d) * (Rc + d).
Proof.
  intros Hp.
  destruct (stroke_inv arc Rc d Harc Hd p Hp) as (q & k & Hq & Hk & -> & Hb).
  pose proof (arc_norm arc Rc Harc q Hq) as Hn.
  assert (E : dist2 (k * px q, k * py q) (0, 0) = (k * Rc) * (k * Rc)).
  { unfold dist2. cbn [px py fst snd].
    transitivity (k * k * (px q * px q + py q * py q));
      [unfold px, py; ring|rewrite Hn; ring]. }
  rewrite E. split; apply sq_mono; lra.
Qed.

End RingRadius.

(** X11.  The stroked claw ring keeps clear of the island: for
    [0 <= res_claw_width] and [0 < rad_i + res_dist], every point of the
    ring of [make_claw] lies at a distance from the centre between
    [rad_i + res_dist] and [rad_i + res_dist + res_claw_width], whatever
    the arc length and angle, so for [0 <= rad_i] and [0 < res_dist] it
    is outside the disk of radius [rad_i]; the ring of
    [make_grounded_claw] lies [res_s + res_g_s] further out. *)
Theorem claw_ring_clear_of_island
    (p : TurtleQubit.options) (pc : TurtleQubit.pad_options) (q : point) :
  0 <= TurtleQubit.res_claw_width pc ->
  0 <= TurtleQubit.rad_i p -> 0 < TurtleQubit.res_dist pc ->
  0 <= TurtleQubit.res_s pc + TurtleQubit.res_g_s pc ->
  (TurtleQubit.claw_stroke p pc q ->
   (TurtleQubit.rad_i p + TurtleQubit.res_dist pc)
   * (TurtleQubit.rad_i p + TurtleQubit.res_dist pc)
   <= dist2 q (0, 0)
   <= (TurtleQubit.rad_i p + TurtleQubit.res_dist pc
       + TurtleQubit.res_claw_width pc)
      * (TurtleQubit.rad_i p + TurtleQubit.res_dist pc
         + TurtleQubit.res_claw_width pc) /\
   ~ buffer (Point 0 0) (TurtleQubit.rad_i p) q) /\
  (TurtleQubit.grounded_stroke p pc q ->
   (TurtleQubit.rad_i p + TurtleQubit.res_dist pc
    + TurtleQubit.res_s pc + TurtleQubit.res_g_s pc)
   * (TurtleQubit.rad_i p + TurtleQubit.res_dist pc
      + TurtleQubit.res_s pc + TurtleQubit.res_g_s pc)
   <= dist2 q (0, 0)).
Proof.
  intros Hw Hr Hdist Hs. split.
  - intros Hq. unfold TurtleQubit.claw_stroke in Hq.
    apply (stroke_in_annulus _ (TurtleQubit.claw_circle_radius p pc)) in Hq.
    + unfold TurtleQubit.claw_circle_radius in Hq.
      replace (TurtleQubit.rad_i p + TurtleQubit.res_dist pc
               + 0.5 * TurtleQubit.res_claw_width pc
               - 0.5 * TurtleQubit.res_claw_width pc)
        with (TurtleQubit.rad_i p + TurtleQubit.res_dist pc) in Hq by lra.
      replace (TurtleQubit.rad_i p + TurtleQubit.res_dist pc
               + 0.5 * TurtleQubit.res_claw_width pc
               + 0.5 * TurtleQubit.res_claw_width pc)
        with (TurtleQubit.rad_i p + TurtleQubit.res_dist pc
              + TurtleQubit.res_claw_width pc) in Hq by lra.
      split; [exact Hq|].
      intros Hb. apply buffer_Point in Hb; [|lra].
      assert (Hlt : TurtleQubit.rad_i p * TurtleQubit.rad_i p
                    < (TurtleQubit.rad_i p + TurtleQubit.res_dist pc)
                      * (TurtleQubit.rad_i p + TurtleQubit.res_dist pc)).
      { apply Rmult_le_0_lt_compat; lra. }
      lra.
    + intros c [Hb _]. apply disk_boundary_on_circle; [|exact Hb].
      unfold TurtleQubit.claw_circle_radius. lra.
    + lra.
    + unfold TurtleQubit.claw_circle_radius. lra.
  - intros Hq. unfold TurtleQubit.grounded_stroke in Hq.
    apply (stroke_in_annulus _ (TurtleQubit.grounded_circle_radius p pc)) in Hq.
    + unfold TurtleQubit.grounded_circle_radius in Hq.
      replace (TurtleQubit.rad_i p + TurtleQubit.res_dist pc
               + 0.5 * TurtleQubit.res_claw_width pc
               + TurtleQubit.res_s pc + TurtleQubit.res_g_s pc
               - 0.5 * TurtleQubit.res_claw_width pc)
        with (TurtleQubit.rad_i p + TurtleQubit.res_dist pc
              + TurtleQubit.res_s pc + TurtleQubit.res_g_s pc) in Hq by lra.
      exact (proj1 Hq).
    + intros c [Hb _]. apply disk_boundary_on_circle; [|exact Hb].
      unfold TurtleQubit.grounded_circle_radius. lra.
    + lra.
    + unfold TurtleQubit.grounded_circle_radius. lra.
Qed.

Lemma claw_ring_clear_of_island_witness :
  ~ (TurtleQubit.claw_stroke (TurtleQubit.default_options [])
       TurtleQubit.default_connection_pad (155 / 1000, 0) /\
     buffer (Point 0 0) (125 / 1000) (155 / 1000, 0)).
Proof.
  intros [Hq Hb].
  refine (proj2 (proj1 (claw_ring_clear_of_island
            (TurtleQubit.default_options [])
            TurtleQubit.default_connection_pad (155 / 1000, 0) _ _ _ _) Hq)
            Hb).
  - simpl; lra.
  - simpl; lra.
  - simpl; lra.
  - simpl; lra.
Defined.

(** ** The clipping wedge of a claw at 90 degrees *)

Section Wedge.
Variables r e c s : R.
Hypothesis Hr : 0 < r.
Hypothesis He : 0 <= e.
Hypothesis Hc : 0 < c.
Hypothesis Hc1 : c < 1.
Hypothesis Hs : 0 < s.

(** The wedge with its axis on the x axis and half-angle of cosine [c]
    and sine [s] lies in the cone of that half-angle. *)
Lemma wedge_in_cone (x y : R) :
  Polygon [ (0, 0); (r * c, - (r * s)); (r + e, 0); (r * c, r * s) ] (x, y) ->
  c * y <= s * x /\ - (c * y) <= s * x.
Proof.
  assert (Hrc : r * c < r) by (apply (Rmult_lt_compat_l r) in Hc1; lra).
  assert (Hrc0 : 0 < r * c) by (apply Rmult_lt_0_compat; assumption).
  assert (Hrs : 0 < r * s) by (apply Rmult_lt_0_compat; assumption).
  assert (P4 : 0 < (r + e - r * c) * (r * s))
    by (apply Rmult_lt_0_compat; lra).
  unfold Polygon. cbn [edges edges_from].
  intros [Hring|Hodd].
  - cbn [on_ring] in Hring.
    unfold on_segment, cross, between, px, py in Hring; simpl in Hring.
    destruct Hring as [H|[H|[H|[H|[]]]]]; destruct H as [Hcr [Hx Hy]].
    + assert (E : r * (c * y + s * x) = 0) by lra.
      apply Rmult_integral in E. destruct E as [E|E]; [lra|].
      assert (0 <= x) by lra.
      assert (0 <= s * x) by (apply Rmult_le_pos; lra). lra.
    + assert (Hx' : r * c <= x <= r + e) by lra.
      assert (Hy' : - (r * s) <= y <= 0) by lra.
      assert (c * (r * s) <= s * x).
      { replace (c * (r * s)) with (s * (r * c)) by ring.
        apply Rmult_le_compat_l; lra. }
      assert (c * - (r * s) <= c * y) by (apply Rmult_le_compat_l; lra).
      assert (c * y <= c * 0) by (apply Rmult_le_compat_l; lra).
      lra.
    + assert (Hx' : r * c <= x <= r + e) by lra.
      assert (Hy' : 0 <= y <= r * s) by lra.
      assert (c * (r * s) <= s * x).
      { replace (c * (r * s)) with (s * (r * c)) by ring.
        apply Rmult_le_compat_l; lra. }
      assert (c * y <= c * (r * s)) by (apply Rmult_le_compat_l; lra).
      assert (c * 0 <= c * y) by (apply Rmult_le_compat_l; lra).
      lra.
    + assert (E : r * (s * x - c * y) = 0) by lra.
      apply Rmult_integral in E. destruct E as [E|E]; [lra|].
      assert (0 <= x) by lra.
      assert (0 <= s * x) by (apply Rmult_le_pos; lra). lra.
  - destruct (Rlt_le_dec x 0) as [H1|H1].
    { repeat step_in Hodd. tauto. }
    assert (Hsx : 0 <= s * x) by (apply Rmult_le_pos; lra).
    destruct (Rlt_le_dec x (r * c)) as [H2|H2].
    { destruct (Rlt_le_dec (c * y + s * x) 0) as [Ha|Ha];
      destruct (Rlt_le_dec 0 (s * x - c * y)) as [Hb|Hb].
      - exfalso.
        assert (Ha' : 0 < r * (- (c * y + s * x)))
          by (apply Rmult_lt_0_compat; lra).
        assert (Hb' : 0 < r * (s * x - c * y))
          by (apply Rmult_lt_0_compat; lra).
        repeat step_in Hodd. tauto.
      - exfalso. lra.
      - split; lra.
      - exfalso.
        assert (Ha' : 0 <= r * (c * y + s * x))
          by (apply Rmult_le_pos; lra).
        assert (Hb' : 0 <= r * (c * y - s * x))
          by (apply Rmult_le_pos; lra).
        repeat step_in Hodd. tauto. }
    destruct (Rlt_le_dec x (r + e)) as [H3|H3].
    { assert (Hcs : c * (r * s) <= s * x).
      { replace (c * (r * s)) with (s * (r * c)) by ring.
        apply Rmult_le_compat_l; lra. }
      assert (P2 : 0 <= r * s * (x - r * c)) by (apply Rmult_le_pos; lra).
      assert (P3 : 0 < r * s * (r + e - x))
        by (apply Rmult_lt_0_compat; lra).
      destruct (Rlt_le_dec y (- (r * s))) as [Hlow|Hlow].
      { exfalso.
        assert (P1 : 0 < (r + e - r * c) * (- (r * s) - y))
          by (apply Rmult_lt_0_compat; lra).
        repeat step_in Hodd. tauto. }
      destruct (Rlt_le_dec (r * s) y) as [Hhigh|Hhigh].
      { exfalso.
        assert (P1 : 0 < (r + e - r * c) * (y - r * s))
          by (apply Rmult_lt_0_compat; lra).
        repeat step_in Hodd. tauto. }
      assert (c * y <= c * (r * s)) by (apply Rmult_le_compat_l; lra).
      assert (c * - (r * s) <= c * y) by (apply Rmult_le_compat_l; lra).
      lra. }
    repeat step_in Hodd. tauto.
Qed.

End Wedge.

(** ** An arc too short for the rounding radius *)

Section ShortArc.
Variable arc : shape.
Variables Rc d rho c s : R.
Hypothesis Harc : forall q, arc q -> dist2 q (0, 0) = Rc * Rc.
Hypothesis Hcone :
  forall q, arc q -> c * py q <= s * px q /\ - (c * py q) <= s * px q.
Hypothesis HRc : 0 < Rc.
Hypothesis Hd : 0 <= d.
Hypothesis Hrho : 0 <= rho.
Hypothesis Hc : 0 < c.
Hypothesis Hs : 0 <= s.
Hypothesis Hshort : s * (Rc + d) < rho * c.

Let S : shape := buffer_flat arc d.

(** A point of the stroke lies in the cone and not right of the outer
    radius. *)
Lemma stroke_in_cone (x y : R) :
  S (x, y) ->
  c * y <= s * x /\ - (c * y) <= s * x /\ s * x <= s * (Rc + d).
Proof.
  intros H.
  destruct (stroke_inv arc Rc d Harc Hd _ H) as (q & k & Hq & Hk & Heq & Hb).
  injection Heq as -> ->.
  destruct (Hcone q Hq) as [C1 C2].
  pose proof (arc_norm arc Rc Harc q Hq) as Hn.
  assert (Hqx : px q <= Rc).
  { pose proof (sq_nonneg (py q)).
    assert (Hsq : px q * px q <= Rc * Rc) by lra.
    apply sq_bound in Hsq; lra. }
  assert (K1 : k * (c * py q) <= k * (s * px q))
    by (apply Rmult_le_compat_l; lra).
  assert (K2 : k * - (c * py q) <= k * (s * px q))
    by (apply Rmult_le_compat_l; lra).
  assert (K3 : k * px q <= k * Rc) by (apply Rmult_le_compat_l; lra).
  assert (K4 : s * (k * px q) <= s * (Rc + d)).
  { apply Rmult_le_compat_l; [exact Hs|]. lra. }
  split; [|split].
  - replace (c * (k * py q)) with (k * (c * py q)) by ring.
    replace (s * (k * px q)) with (k * (s * px q)) by ring. exact K1.
  - replace (- (c * (k * py q))) with (k * - (c * py q)) by ring.
    replace (s * (k * px q)) with (k * (s * px q)) by ring. exact K2.
  - exact K4.
Qed.

Lemma short_stroke_rounds_to_nothing : empty (TurtleQubit.round_claw S rho).
Proof.
  intros p Hr.
  apply round_claw_inv in Hr; [|exact Hrho].
  destruct Hr as [Hp [[cx cy] [Hcore Hd2]]].
  assert (HSc : S (cx, cy)).
  { apply (core_in_shape S rho) with (t := p); try assumption.
    rewrite dist2_sym. exact Hd2. }
  destruct (stroke_in_cone _ _ HSc) as (C1 & C2 & C3).
  destruct (Rle_lt_dec 0 cy) as [Hy|Hy].
  - apply (core_excludes S rho) with (c := (cx, cy))
        (a := (cx, cy + rho)) (t := (cx, cy)); try assumption.
    + intros Ha. destruct (stroke_in_cone _ _ Ha) as (A1 & _ & _).
      assert (0 <= c * cy) by (apply Rmult_le_pos; lra).
      lra.
    + apply dist2_col. lra.
    + apply dist2_col. lra.
  - apply (core_excludes S rho) with (c := (cx, cy))
        (a := (cx, cy - rho)) (t := (cx, cy)); try assumption.
    + intros Ha. destruct (stroke_in_cone _ _ Ha) as (_ & A2 & _).
      assert (0 <= c * - cy) by (apply Rmult_le_pos; lra).
      lra.
    + apply dist2_col. lra.
    + apply dist2_col. lra.
Qed.

End ShortArc.

Section WedgeAtNinety.
Variables r theta e : R.

(** With [res_angle] 90 the wedge of [make_claw] has its axis on the x
    axis. *)
Lemma claw_inter_at_90 :
  TurtleQubit.claw_inter r theta (90 * PI / 180) e
  = Polygon [ (0, 0);
              (r * cos (theta / 2), - (r * sin (theta / 2)));
              (r + e, 0);
              (r * cos (theta / 2), r * sin (theta / 2)) ].
Proof.
  unfold TurtleQubit.claw_inter.
  replace (- PI / 2 + 90 * PI / 180 - theta / 2) with (- (theta / 2)) by lra.
  replace (- PI / 2 + 90 * PI / 180 + theta / 2) with (theta / 2) by lra.
  replace (- PI / 2 + 90 * PI / 180) with 0 by lra.
  replace (PI / 2 + 90 * PI / 180) with PI by lra.
  rewrite cos_neg, sin_neg, cos_0, sin_PI.
  replace (r * - sin (theta / 2)) with (- (r * sin (theta / 2))) by ring.
  replace ((r + e) * 1) with (r + e) by ring.
  replace ((r + e) * 0) with 0 by ring.
  reflexivity.
Qed.

End WedgeAtNinety.

Section SmallAngles.

Lemma cos_below_one (x : R) : 0 < sin x -> cos x < 1.
Proof.
  intros Hs. pose proof (sin_cos_one x) as H.
  assert (Hss : 0 < sin x * sin x) by (apply Rmult_lt_0_compat; assumption).
  destruct (Rlt_le_dec (cos x) 1) as [Hlt|Hge]; [exact Hlt|exfalso].
  assert (1 * 1 <= cos x * cos x) by (apply sq_mono; lra).
  lra.
Qed.

Lemma cos_above_half (x : R) : 0 < x -> x <= 1 / 2 -> 1 / 2 <= cos x.
Proof.
  intros H0 H1. pose proof PI2_1 as Hpi.
  assert (Hs0 : 0 < sin x) by (apply sin_gt_0; lra).
  assert (Hs1 : sin x < x) by (apply sin_lt_x; exact H0).
  assert (Hc0 : 0 < cos x) by (apply cos_gt_0; lra).
  pose proof (sin_cos_one x) as H.
  assert (Hss : sin x * sin x < 1 / 2 * (1 / 2))
    by (apply Rmult_le_0_lt_compat; lra).
  destruct (Rle_lt_dec (1 / 2) (cos x)) as [Hge|Hlt]; [exact Hge|exfalso].
  assert (cos x * cos x < 1 / 2 * (1 / 2))
    by (apply Rmult_le_0_lt_compat; lra).
  lra.
Qed.

End SmallAngles.

(** X12.  A rounding radius below half the stroke width is not enough
    when the arc is short: for a claw at [res_angle = 90] with
    non-negative [res_ext], [res_claw_width] and [res_claw_rounding],
    a positive [rad_i + res_dist] and a half-angle [theta / 2] between
    0 and a right angle, if [r * sin (theta / 2) < res_claw_rounding *
    cos (theta / 2)] then the rounding statements of [make_claw] leave
    nothing of the stroked ring.  With [res_arc = 1um], width 10um and
    rounding 2um this happens although the rounding radius is below
    half the width. *)
Theorem short_arc_rounds_to_nothing
    (p : TurtleQubit.options) (pc : TurtleQubit.pad_options) :
  TurtleQubit.res_angle pc = 90 ->
  0 <= TurtleQubit.res_ext pc ->
  0 <= TurtleQubit.res_claw_width pc ->
  0 < TurtleQubit.rad_i p + TurtleQubit.res_dist pc ->
  0 <= TurtleQubit.res_claw_rounding pc ->
  0 < TurtleQubit.claw_theta p pc / 2 ->
  TurtleQubit.claw_theta p pc / 2 < PI / 2 ->
  sin (TurtleQubit.claw_theta p pc / 2) * TurtleQubit.claw_r p pc
  < TurtleQubit.res_claw_rounding pc * cos (TurtleQubit.claw_theta p pc / 2) ->
  empty (TurtleQubit.round_claw (TurtleQubit.claw_stroke p pc)
           (TurtleQubit.res_claw_rounding pc)).
Proof.
  intros Hangle Hext Hw Hrad Hrho Ht0 Ht1 Hshort.
  pose proof PI_RGT_0 as Hpi.
  assert (Hs : 0 < sin (TurtleQubit.claw_theta p pc / 2))
    by (apply sin_gt_0; lra).
  assert (Hc : 0 < cos (TurtleQubit.claw_theta p pc / 2))
    by (apply cos_gt_0; lra).
  pose proof (cos_below_one _ Hs) as Hc1.
  assert (Hr : 0 < TurtleQubit.claw_r p pc)
    by (unfold TurtleQubit.claw_r; lra).
  unfold TurtleQubit.claw_stroke. rewrite Hangle, claw_inter_at_90.
  apply (short_stroke_rounds_to_nothing _
           (TurtleQubit.claw_circle_radius p pc)
           (0.5 * TurtleQubit.res_claw_width pc)
           (TurtleQubit.res_claw_rounding pc)
           (cos (TurtleQubit.claw_theta p pc / 2))
           (sin (TurtleQubit.claw_theta p pc / 2))); try lra.
  - intros q [Hb _]. apply disk_boundary_on_circle; [|exact Hb].
    unfold TurtleQubit.claw_circle_radius. lra.
  - intros [x y] [_ Hwedge]. unfold px, py; simpl.
    apply (wedge_in_cone (TurtleQubit.claw_r p pc) (TurtleQubit.res_ext pc));
      assumption.
  - unfold TurtleQubit.claw_circle_radius. lra.
  - replace (TurtleQubit.claw_circle_radius p pc
             + 0.5 * TurtleQubit.res_claw_width pc)
      with (TurtleQubit.claw_r p pc)
      by (unfold TurtleQubit.claw_circle_radius, TurtleQubit.claw_r; lra).
    exact Hshort.
Qed.

Lemma short_arc_rounds_to_nothing_witness :
  2 / 1000 < 10 / 1000 / 2 /\
  empty (TurtleQubit.round_claw
           (TurtleQubit.claw_stroke (TurtleQubit.default_options [])
              (TurtleQubit.mk_pad (1 / 1000) (25 / 1000) (25 / 1000) 90
                 (10 / 1000) (2 / 1000) (6 / 1000) false (2 / 1000)
                 (12 / 1000) (12 / 1000)))
           (2 / 1000)).
Proof.
  split; [lra|].
  assert (Ehalf : TurtleQubit.claw_theta (TurtleQubit.default_options [])
                    (TurtleQubit.mk_pad (1 / 1000) (25 / 1000) (25 / 1000) 90
                       (10 / 1000) (2 / 1000) (6 / 1000) false (2 / 1000)
                       (12 / 1000) (12 / 1000)) / 2 = 1 / 320).
  { unfold TurtleQubit.claw_theta, TurtleQubit.claw_r; simpl. lra. }
  pose proof PI2_1 as Hpi.
  assert (Hsin : sin (1 / 320) < 1 / 320) by (apply sin_lt_x; lra).
  assert (Hsin0 : 0 < sin (1 / 320)) by (apply sin_gt_0; lra).
  assert (Hcos : 1 / 2 <= cos (1 / 320)) by (apply cos_above_half; lra).
  refine (short_arc_rounds_to_nothing (TurtleQubit.default_options [])
            (TurtleQubit.mk_pad (1 / 1000) (25 / 1000) (25 / 1000) 90
               (10 / 1000) (2 / 1000) (6 / 1000) false (2 / 1000)
               (12 / 1000) (12 / 1000)) _ _ _ _ _ _ _ _).
  - reflexivity.
  - simpl; lra.
  - simpl; lra.
  - simpl; lra.
  - simpl; lra.
  - rewrite Ehalf. lra.
  - rewrite Ehalf. lra.
  - rewrite Ehalf. unfold TurtleQubit.claw_r; simpl. lra.
Defined.
